(** * The PKCS#11 attribute-name resolver of [lib/pkcs11_attrdesc.c]

    The C file holds a static table [_a] of [AttributeDesc] records
    (attribute code, attribute name), filled by the generated header
    [_attrinfo.h], a comparator [compare_CKA_desc] built on [strcasecmp],
    and the lookup [get_attribute_type_from_name], which hands the table
    to the C library's [bsearch].

    The development embeds the C code as a program of a small memory
    monad: the memory holds the two objects the function can reach (the
    table and the caller's buffer), reads are bounds-checked, and the loop
    of [bsearch] runs on fuel.  The library functions [tolower],
    [strcasecmp] and [bsearch] are embedded from their C-locale/glibc
    behaviour.

    The wrapper scripts that come with the library are embedded as
    functions of the shell variables and of the file system they test. *)

From Stdlib Require Import ZArith List String Ascii Bool Lia Sorted.
Import ListNotations.

Local Open Scope string_scope.
Local Open Scope Z_scope.

(** ** Characters and C strings *)

Module CString.

(** The value of a [char] read as [unsigned char]. *)
Definition byte (c : ascii) : Z := Z.of_N (N_of_ascii c).

(** [*p] for a pointer into a buffer whose remaining content is [s]:
    the terminating NUL is what is read once the content is used up. *)
Definition peek (s : string) : Z :=
  match s with
  | EmptyString => 0
  | String c _ => byte c
  end.

(** [tolower] in the C locale: only 'A'..'Z' are mapped. *)
Definition tolower (c : Z) : Z :=
  if (65 <=? c) && (c <=? 90) then c + 32 else c.

(** [toupper] in the C locale, used to build case variants of a name. *)
Definition toupper (c : Z) : Z :=
  if (97 <=? c) && (c <=? 122) then c - 32 else c.

(** [strcasecmp], following the loop of the C library:
the lowered characters at the two
    cursors are subtracted; a non-zero difference is returned at once,
    and equal characters advance both cursors unless the character just
    read from the first string was the terminator.  A NUL inside the buffer ends the comparison as it does in C. *)
Fixpoint strcasecmp (s1 s2 : string) : Z :=
  match s1, s2 with
  | String c1 r1, String c2 r2 =>
      let result := tolower (byte c1) - tolower (byte c2) in
      if result =? 0
      then if byte c1 =? 0 then result else strcasecmp r1 r2
      else result
  | _, _ => tolower (peek s1) - tolower (peek s2)
  end.

(** The C string held by a buffer: the characters before the first NUL. *)
Fixpoint cstr (s : string) : string :=
  match s with
  | EmptyString => EmptyString
  | String c r => if byte c =? 0 then EmptyString else String c (cstr r)
  end.

(** The case-folded content of a C string, as character codes. *)
Fixpoint casefold (s : string) : list Z :=
  match s with
  | EmptyString => []
  | String c r => tolower (byte c) :: casefold r
  end.

(** Equality of two C strings up to ASCII case. *)
Definition ci_equal (s t : string) : Prop :=
  casefold (cstr s) = casefold (cstr t).

Definition ci_equalb (s t : string) : bool :=
  if list_eq_dec Z.eq_dec (casefold (cstr s)) (casefold (cstr t))
  then true else false.

(** Character-wise case conversion of a whole string. *)
Fixpoint map_case (f : Z -> Z) (s : string) : string :=
  match s with
  | EmptyString => EmptyString
  | String c r => String (ascii_of_N (Z.to_N (f (byte c)))) (map_case f r)
  end.

Definition uppercase : string -> string := map_case toupper.
Definition lowercase : string -> string := map_case tolower.

(** The case-folded content of the C string in a buffer: what
    [strcasecmp] sees of it. *)
Definition fold_key (s : string) : list Z := casefold (cstr s).

(** The difference of two folded contents at their first mismatch, the
    end of a content counting as 0. *)
Fixpoint lexdiff (k1 k2 : list Z) : Z :=
  match k1, k2 with
  | x :: r1, y :: r2 => if x - y =? 0 then lexdiff r1 r2 else x - y
  | [], [] => 0
  | [], y :: _ => - y
  | x :: _, [] => x
  end.

End CString.

Import CString.

(** ** The table and the memory *)

(** [struct s_attr_desc]: [type] is a [CK_ATTRIBUTE_TYPE] (an unsigned
    integer), [desc] points to a string literal of [_attrinfo.h]; the
    string is kept in the record. *)
Record AttributeDesc : Type := { type : Z; desc : string }.

(** The two objects [get_attribute_type_from_name] can reach: the static
    array [_a] and the buffer its argument [name] points to.  Neither is
    declared [const] in the source. *)
Record memory : Type := Mem { _a : list AttributeDesc; name_buf : string }.

(** How a run ends: with a value and the memory it leaves, by reading
    outside an object (undefined behaviour in C), or out of fuel. *)
Inductive outcome (A : Type) : Type :=
| Done (v : A) (m : memory)
| Fault
| Timeout.

Arguments Done {A} v m.
Arguments Fault {A}.
Arguments Timeout {A}.

Definition M (A : Type) : Type := memory -> outcome A.

Definition ret {A : Type} (v : A) : M A := fun m => Done v m.

Definition bind {A B : Type} (c : M A) (k : A -> M B) : M B :=
  fun m =>
    match c m with
    | Done v m' => k v m'
    | Fault => Fault
    | Timeout => Timeout
    end.

Notation "x <- c ;; k" := (bind c (fun x => k))
  (at level 61, c at next level, right associativity).

(** [_a[idx]]: a read of the static array, checked against its bounds. *)
Definition load_a (idx : nat) : M AttributeDesc :=
  fun m =>
    match nth_error (_a m) idx with
    | Some e => Done e m
    | None => Fault
    end.

(** [sizeof(_a)/sizeof(AttributeDesc)]: the number of elements of [_a]. *)
Definition sizeof_a : M nat := fun m => Done (List.length (_a m)) m.

(** The string the argument [name] points to. *)
Definition load_name : M string := fun m => Done (name_buf m) m.

(** ** The program *)

(** [compare_CKA_desc]: [strcasecmp] on the [desc] fields of the two
    records behind the pointers. *)
Definition compare_CKA_desc (a b : AttributeDesc) : Z :=
  strcasecmp (desc a) (desc b).

(** The loop of the C library's [bsearch] on the array [_a], with the
    bounds [l] and [u] as its state.  [l + u] does not wrap: the array is
    an object in memory, so twice its element count fits in [size_t]. *)
Fixpoint bsearch_loop (fuel : nat) (key : AttributeDesc)
    (compar : AttributeDesc -> AttributeDesc -> Z) (l u : nat)
  : M (option AttributeDesc) :=
  match fuel with
  | O => fun _ => Timeout
  | S fuel' =>
      if (l <? u)%nat then
        let idx := ((l + u) / 2)%nat in
        p <- load_a idx ;;
        let comparison := compar key p in
        if comparison <? 0 then bsearch_loop fuel' key compar l idx
        else if comparison >? 0 then bsearch_loop fuel' key compar (idx + 1) u
        else ret (Some p)
      else ret None
  end.

(** [bsearch(key, _a, nmemb, sizeof(AttributeDesc), compar)]; the result
    is the matching element, [None] for the null pointer.  Every round of
    the loop shrinks [u - l], so [nmemb] rounds and the final test are
    all the fuel the loop can use ([bsearch_loop_fuel] below). *)
Definition bsearch (key : AttributeDesc) (nmemb : nat)
    (compar : AttributeDesc -> AttributeDesc -> Z) : M (option AttributeDesc) :=
  bsearch_loop (S nmemb) key compar 0 nmemb.

(** The search key [AttributeDesc candidate = { 0xFFFFFFFF, name }]. *)
Definition candidate (name : string) : AttributeDesc :=
  {| type := 0xFFFFFFFF; desc := name |}.

(** [get_attribute_type_from_name(name)]; [found] is the pointer the
    source calls [match]. *)
Definition get_attribute_type_from_name : M Z :=
  let retval := 0xFFFFFFFF in
  array_size <- sizeof_a ;;
  name <- load_name ;;
  found <- bsearch (candidate name) array_size compare_CKA_desc ;;
  ret (match found with
       | Some e => type e
       | None => retval
       end).

(** [n] calls in a row, each starting in the memory the one before left;
    the results are collected in call order. *)
Fixpoint repeated_calls (n : nat) : M (list Z) :=
  match n with
  | O => ret []
  | S n' =>
      v <- get_attribute_type_from_name ;;
      vs <- repeated_calls n' ;;
      ret (v :: vs)
  end.

(** ** Properties of tables *)

(** The value returned when no entry matches. *)
Definition NOT_FOUND_SENTINEL : Z := 0xFFFFFFFF.

(** Adjacent entries compare strictly negative under [compare_CKA_desc]. *)
Fixpoint strictly_ascending (tbl : list AttributeDesc) : bool :=
  match tbl with
  | e1 :: ((e2 :: _) as rest) =>
      (compare_CKA_desc e1 e2 <? 0) && strictly_ascending rest
  | _ => true
  end.

(** The strict order of the comparator on entries. *)
Definition lt_desc (a b : AttributeDesc) : Prop := compare_CKA_desc a b < 0.

(** The order of the comparator on entries, equality included. *)
Definition le_desc (a b : AttributeDesc) : Prop := compare_CKA_desc a b <= 0.

(** No entry's name equals [s] up to case. *)
Definition no_entry_named (tbl : list AttributeDesc) (s : string) : Prop :=
  forall e, In e tbl -> ~ ci_equal s (desc e).

Definition no_entry_namedb (tbl : list AttributeDesc) (s : string) : bool :=
  forallb (fun e => negb (ci_equalb s (desc e))) tbl.

(** The reference lookup in the specification's words: a linear scan for
    the first entry whose name equals the input up to case, giving its
    code, or the sentinel when there is none. *)
Fixpoint resolve_linear_spec (tbl : list AttributeDesc) (name : string) : Z :=
  match tbl with
  | [] => NOT_FOUND_SENTINEL
  | e :: rest =>
      if ci_equalb name (desc e) then type e
      else resolve_linear_spec rest name
  end.

(** A table in the format of [_attrinfo.h], to run the program on: some
    attributes of the PKCS#11 standard with their codes, in the order
    of [strcasecmp]. *)
Definition sample_a : list AttributeDesc :=
  [ {| type := 0x10;  desc := "CKA_APPLICATION" |};
    {| type := 0x0;   desc := "CKA_CLASS" |};
    {| type := 0x102; desc := "CKA_ID" |};
    {| type := 0x100; desc := "CKA_KEY_TYPE" |};
    {| type := 0x3;   desc := "CKA_LABEL" |};
    {| type := 0x2;   desc := "CKA_PRIVATE" |};
    {| type := 0x1;   desc := "CKA_TOKEN" |};
    {| type := 0x11;  desc := "CKA_VALUE" |};
    {| type := 0x80000000; desc := "CKA_VENDOR_DEFINED" |} ].

(** Adjacent entries compare negative or equal: ascending order in which
    names equal up to case may follow one another. *)
Fixpoint ascending (tbl : list AttributeDesc) : bool :=
  match tbl with
  | e1 :: ((e2 :: _) as rest) =>
      (compare_CKA_desc e1 e2 <=? 0) && ascending rest
  | _ => true
  end.

(** A table in ascending order with two names equal up to case. *)
Definition sample_dup : list AttributeDesc :=
  [ {| type := 0x0;   desc := "CKA_CLASS" |};
    {| type := 0x102; desc := "CKA_ID" |};
    {| type := 0x999; desc := "cka_id" |};
    {| type := 0x3;   desc := "CKA_LABEL" |} ].

(** ** The wrapper scripts

    The two shell scripts run a PKCS#11 command with presets for a token:
    they locate the vendor library, hook a logging library in front of
    it on request, choose the slot, and hand the [PKCS11...] variables
    to the command.  The file system is seen through the test [-e], given
    here as a function [fs] from path names to booleans; a shell variable
    is its value, unset and empty being alike to every expansion and test
    the scripts use. *)

Module Sh.

Definition env : Type := string -> string.

(** [x=v] *)
Definition assign (x v : string) (e : env) : env :=
  fun y => if String.eqb y x then v else e y.

(** [unset x] *)
Definition unset (x : string) (e : env) : env := assign x "" e.

(** [-z "$x"] and [-n "$x"] *)
Definition is_empty (v : string) : bool :=
  match v with
  | EmptyString => true
  | String _ _ => false
  end.

Definition non_empty (v : string) : bool := negb (is_empty v).

(** [${x:-d}] *)
Definition default_to (v d : string) : string :=
  if is_empty v then d else v.

(** What a shell function wrote with [echo], and its return status. *)
Definition reply : Type := (string * Z)%type.

(** The loop shared by the functions that look for one file name:
    [for path in ...; do if -e $path/$lib then echo $path/$lib; return 0],
    and after the loop [echo "NOT FOUND"; return 1]. *)
Fixpoint search_paths (fs : string -> bool) (lib : string)
    (paths : list string) : reply :=
  match paths with
  | [] => ("NOT FOUND", 1)
  | path :: rest =>
      if fs (path ++ "/" ++ lib) then (path ++ "/" ++ lib, 0)
      else search_paths fs lib rest
  end.

(** The inner loop of the functions that look for several file names in
    each directory: [for lib in ...] under one [path].  [None] when the
    loop ends without a [return]. *)
Fixpoint search_names (fs : string -> bool) (path : string)
    (names : list string) : option reply :=
  match names with
  | [] => None
  | lib :: rest =>
      if fs (path ++ "/" ++ lib) then Some (path ++ "/" ++ lib, 0)
      else search_names fs path rest
  end.

(** The two nested loops, directories outside and names inside. *)
Fixpoint search_nested (fs : string -> bool) (paths names : list string)
  : reply :=
  match paths with
  | [] => ("NOT FOUND", 1)
  | path :: rest =>
      match search_names fs path names with
      | Some r => r
      | None => search_nested fs rest names
      end
  end.

(** The files two nested loops test, in the order they test them. *)
Definition candidates (paths names : list string) : list string :=
  flat_map (fun path => map (fun lib => path ++ "/" ++ lib) names) paths.

(** No directory of [paths] holds [lib]. *)
Definition none_exists (fs : string -> bool) (lib : string)
    (paths : list string) : bool :=
  forallb (fun path => negb (fs (path ++ "/" ++ lib))) paths.

(** How a script ends: with [exit], at the [eval] of the command with
    the array [environment] in front of it, or in the step that looks for
    a [.pkcs11rc] file and sources it, which is left out. *)
Inductive ending : Type :=
| Exit (status : Z)
| At_eval (environment : list string)
| Rc_step.

End Sh.

(** The script for the Utimaco library. [home] is the value of [HOME],
    one word without pattern characters. *)
Module Utimaco.

Import Sh.

Definition PKCS11_LIBPATHS (home : string) : list string :=
  [ "/usr/lib/pkcs11"; "/usr/lib"; "/usr/local/lib/pkcs11"; "/usr/local/lib";
    "/opt/utimaco/lib"; home ++ "/utimaco/pkcs11/lib"; home ++ "/utimaco/lib" ].

Definition PKCS11_LIBNAMES : list string :=
  [ "libcs_pkcs11_R3.so"; "libcs_pkcs11_R2.so" ].

Definition PKCS11_CFGNAMES : list string :=
  [ "cs_pkcs11_R3.cfg"; "cs_pkcs11_R2.cfg" ].

Definition PKCS11_CFGPATHS (home : string) : list string :=
  [ "/opt/utimaco"; "/usr/local/etc"; "/etc";
    home ++ "/utimaco/pkcs11"; home ++ "/utimaco" ].

Definition find_utimaco_cfg_file (fs : string -> bool) (home : string)
  : reply :=
  search_nested fs (PKCS11_CFGPATHS home) PKCS11_CFGNAMES.

Definition find_p11_lib (fs : string -> bool) (home : string) : reply :=
  search_nested fs (PKCS11_LIBPATHS home) PKCS11_LIBNAMES.

End Utimaco.

(** The script for the CloudHSM library. [machine] is what [uname -m]
    prints, one word. *)
Module CloudHSM.

Import Sh.

Definition PKCS11_LIBNAME : string := "libcloudhsm_pkcs11.so".

Definition PKCS11_LIBPATHS : list string :=
  [ "/opt/cloudhsm/lib"; "/usr/local/lib" ].

Definition find_p11_lib (fs : string -> bool) : reply :=
  search_paths fs PKCS11_LIBNAME PKCS11_LIBPATHS.

(** The value the script gives [PKCS11LIB] before any hook: the caller's,
    or else what [find_p11_lib] printed. *)
Definition vendor_lib (fs : string -> bool) (e : env) : string :=
  default_to (e "PKCS11LIB") (fst (find_p11_lib fs)).

Definition shim_paths : list string := [ "/usr/local/lib"; "/usr/lib" ].

Definition find_shim_lib (fs : string -> bool) : reply :=
  search_paths fs "libpkcs11shim.so" shim_paths.

Definition spy_paths (machine : string) : list string :=
  [ "/usr/lib/" ++ machine ++ "-linux-gnu/pkcs11"; "/usr/lib64";
    "/usr/local/lib"; "/usr/local/opt/opensc/lib" ].

Definition find_spy_lib (fs : string -> bool) (machine : string) : reply :=
  search_paths fs "pkcs11-spy.so" (spy_paths machine).

Definition variables : list string :=
  [ "PKCS11LIB"; "PKCS11NSSDIR"; "PKCS11SLOT"; "PKCS11TOKENLABEL";
    "PKCS11PASSWORD"; "PKCS11SHIM"; "PKCS11SHIM_OUTPUT"; "PKCS11SPY";
    "PKCS11SPY_OUTPUT" ].

(** [for v in ...; do if -n "${!v}" then environment+=("$v=${!v}")]. *)
Fixpoint collect (e : env) (vs : list string) (environment : list string)
  : list string :=
  match vs with
  | [] => environment
  | v :: rest =>
      collect e rest
        (if non_empty (e v) then app environment [v ++ "=" ++ e v]
         else environment)
  end.

(** The two tests on [NOSLOT] and [PKCS11TOKENLABEL]. *)
Definition choose_slot (e : env) : env :=
  let e :=
    if is_empty (e "NOSLOT") && is_empty (e "PKCS11TOKENLABEL")
    then assign "PKCS11SLOT" (default_to (e "PKCS11SLOT") "0") e
    else e in
  if non_empty (e "NOSLOT")
  then unset "PKCS11SLOT" (unset "PKCS11TOKENLABEL" e)
  else e.

(** From the slot tests to the [eval]: [environment=] leaves one empty
    element in the array before the variables are added; [LIB_ENVVARS]
    is empty in this script. *)
Definition hand_over (out : list string) (e : env)
  : list string * ending :=
  (out, At_eval (collect (choose_slot e) variables [""])).

(** The script from its first line to the [eval], with what it wrote
    with [echo]. *)
Definition script (fs : string -> bool) (machine : string) (e : env)
  : list string * ending :=
  let e :=
    assign "PKCS11PASSWORD" (default_to (e "PKCS11PASSWORD") "user:changeit")
      e in
  if is_empty (e "NORC") then ([], Rc_step) else
  let e :=
    assign "PKCS11LIB" (default_to (e "PKCS11LIB") (fst (find_p11_lib fs)))
      e in
  if String.eqb (e "PKCS11LIB") "NOT FOUND" then
    (["***Error: PKCS#11 Library not found, please set PKCS11LIB accordingly."],
     Exit 1)
  else if non_empty (e "SHIM") then
    let out :=
      ["SHIM set, trying to hook libpkcs11shim.so, output goes to "
         ++ e "SHIM"] in
    let e := assign "PKCS11SHIM" (e "PKCS11LIB") e in
    let e := assign "PKCS11SHIM_OUTPUT" (e "SHIM") e in
    let e := assign "PKCS11LIB" (fst (find_shim_lib fs)) e in
    if String.eqb (e "PKCS11LIB") "NOT FOUND" then
      (app out
         ["***Error: libpkcs11shim.so Library not found, can't use SHIM option"],
       Exit 1)
    else hand_over out e
  else if non_empty (e "SPY") then
    let out :=
      ["SPY set, trying to hook pkcs11-spy.so, output goes to "
         ++ e "SPY"] in
    let e := assign "PKCS11SPY" (e "PKCS11LIB") e in
    let e := assign "PKCS11SPY_OUTPUT" (e "SPY") e in
    let e := assign "PKCS11LIB" (fst (find_spy_lib fs machine)) e in
    if String.eqb (e "PKCS11LIB") "NOT FOUND" then
      (app out
         ["***Error: pkcs11-spy.so Library not found, can't use SPY option"],
       Exit 1)
    else hand_over out e
  else hand_over [] e.

(** The variables as they stand when the slot tests begin, in a run
    that reaches the [eval]. *)
Definition at_slot_tests (fs : string -> bool) (machine : string)
    (e e' : env) : Prop :=
  e' "NOSLOT" = e "NOSLOT" /\
  e' "PKCS11TOKENLABEL" = e "PKCS11TOKENLABEL" /\
  e' "PKCS11SLOT" = e "PKCS11SLOT" /\
  e' "PKCS11NSSDIR" = e "PKCS11NSSDIR" /\
  e' "PKCS11PASSWORD" = default_to (e "PKCS11PASSWORD") "user:changeit" /\
  String.eqb (vendor_lib fs e) "NOT FOUND" = false /\
  ((e "SHIM" <> "" /\
    e' "PKCS11LIB" = fst (find_shim_lib fs) /\
    String.eqb (fst (find_shim_lib fs)) "NOT FOUND" = false /\
    e' "PKCS11SHIM" = vendor_lib fs e /\
    e' "PKCS11SHIM_OUTPUT" = e "SHIM" /\
    e' "PKCS11SPY" = e "PKCS11SPY" /\
    e' "PKCS11SPY_OUTPUT" = e "PKCS11SPY_OUTPUT") \/
   (e "SHIM" = "" /\ e "SPY" <> "" /\
    e' "PKCS11LIB" = fst (find_spy_lib fs machine) /\
    String.eqb (fst (find_spy_lib fs machine)) "NOT FOUND" = false /\
    e' "PKCS11SPY" = vendor_lib fs e /\
    e' "PKCS11SPY_OUTPUT" = e "SPY" /\
    e' "PKCS11SHIM" = e "PKCS11SHIM" /\
    e' "PKCS11SHIM_OUTPUT" = e "PKCS11SHIM_OUTPUT") \/
   (e "SHIM" = "" /\ e "SPY" = "" /\
    e' "PKCS11LIB" = vendor_lib fs e /\
    e' "PKCS11SHIM" = e "PKCS11SHIM" /\
    e' "PKCS11SHIM_OUTPUT" = e "PKCS11SHIM_OUTPUT" /\
    e' "PKCS11SPY" = e "PKCS11SPY" /\
    e' "PKCS11SPY_OUTPUT" = e "PKCS11SPY_OUTPUT")).

(** A file system with the vendor library and the shim, and a caller's
    environment that skips the rc files and asks for the shim. *)
Definition sample_fs (path : string) : bool :=
  String.eqb path "/usr/local/lib/libcloudhsm_pkcs11.so"
  || String.eqb path "/usr/lib/libpkcs11shim.so".

Definition sample_env : env :=
  assign "NORC" "1" (assign "SHIM" "p11.log" (fun _ => "")).

(** The array the script builds from them. *)
Definition sample_environment : list string :=
  [ ""; "PKCS11LIB=/usr/lib/libpkcs11shim.so"; "PKCS11SLOT=0";
    "PKCS11PASSWORD=user:changeit";
    "PKCS11SHIM=/usr/local/lib/libcloudhsm_pkcs11.so";
    "PKCS11SHIM_OUTPUT=p11.log" ].

End CloudHSM.

(** * Properties *)

(** ** Running the definitions *)

Example strcasecmp_label : strcasecmp "cka_label" "CKA_LABEL" = 0.
Proof. reflexivity. Qed.
Example strcasecmp_order : strcasecmp "CKA_CLASS" "cka_label" = 99 - 108.
Proof. reflexivity. Qed.
Example strcasecmp_prefix : strcasecmp "CKA_ID" "CKA_IDX" = -120.
Proof. reflexivity. Qed.
Example strcasecmp_space : strcasecmp " CKA_ID" "CKA_ID" = 32 - 99.
Proof. reflexivity. Qed.
Example uppercase_ex : uppercase "Cka_Label" = "CKA_LABEL".
Proof. reflexivity. Qed.

Example resolve_label :
  get_attribute_type_from_name (Mem sample_a "CKA_LABEL")
  = Done 3 (Mem sample_a "CKA_LABEL").
Proof. reflexivity. Qed.
Example resolve_label_lower :
  get_attribute_type_from_name (Mem sample_a "cka_label")
  = Done 3 (Mem sample_a "cka_label").
Proof. reflexivity. Qed.
Example resolve_class :
  get_attribute_type_from_name (Mem sample_a "CKA_CLASS")
  = Done 0 (Mem sample_a "CKA_CLASS").
Proof. reflexivity. Qed.
Example resolve_unknown :
  get_attribute_type_from_name (Mem sample_a "CKA_NOT_A_REAL_ATTRIBUTE")
  = Done 0xFFFFFFFF (Mem sample_a "CKA_NOT_A_REAL_ATTRIBUTE").
Proof. reflexivity. Qed.
Example sample_a_ascending : strictly_ascending sample_a = true.
Proof. reflexivity. Qed.

(** ** The order [strcasecmp] induces *)

Module Order.

Lemma byte_range c : 0 <= byte c < 256.
Proof.
  unfold byte. pose proof (N_ascii_bounded c). lia.
Qed.

Lemma tolower_range c : 0 <= c < 256 -> 0 <= tolower c < 256.
Proof.
  unfold tolower. intros H.
  destruct ((65 <=? c) && (c <=? 90)) eqn:E; [|lia].
  apply andb_true_iff in E. lia.
Qed.

Lemma tolower_zero c : tolower c = 0 <-> c = 0.
Proof.
  unfold tolower.
  destruct ((65 <=? c) && (c <=? 90)) eqn:E; [|tauto].
  apply andb_true_iff in E. lia.
Qed.

Lemma tolower_pos c : 0 < c -> 0 < tolower c.
Proof.
  unfold tolower. intros H.
  destruct ((65 <=? c) && (c <=? 90)); lia.
Qed.

Lemma tolower_idem c : tolower (tolower c) = tolower c.
Proof.
  unfold tolower.
  destruct ((65 <=? c) && (c <=? 90)) eqn:E.
  - apply andb_true_iff in E.
    destruct ((65 <=? c + 32) && (c + 32 <=? 90)) eqn:E'; [|reflexivity].
    apply andb_true_iff in E'. lia.
  - rewrite E. reflexivity.
Qed.

Lemma tolower_toupper c : tolower (toupper c) = tolower c.
Proof.
  unfold tolower, toupper.
  destruct ((97 <=? c) && (c <=? 122)) eqn:E.
  - apply andb_true_iff in E.
    replace ((65 <=? c - 32) && (c - 32 <=? 90)) with true
      by (symmetry; apply andb_true_iff; lia).
    replace ((65 <=? c) && (c <=? 90)) with false
      by (symmetry; apply andb_false_iff; lia).
    lia.
  - reflexivity.
Qed.

Lemma key_positive s : Forall (fun x => 0 < x) (fold_key s).
Proof.
  unfold fold_key. induction s as [|c r IH]; simpl; [constructor|].
  destruct (byte c =? 0) eqn:E; simpl; [constructor|].
  constructor; [|exact IH].
  apply tolower_pos. pose proof (byte_range c). lia.
Qed.

(** [strcasecmp] is the lexicographic difference of the folded contents. *)
Lemma strcasecmp_lexdiff s1 s2 :
  strcasecmp s1 s2 = lexdiff (fold_key s1) (fold_key s2).
Proof.
  unfold fold_key. revert s2.
  induction s1 as [|c1 r1 IH]; intros [|c2 r2]; simpl.
  - reflexivity.
  - destruct (byte c2 =? 0) eqn:E; simpl; [|reflexivity].
    apply Z.eqb_eq in E. rewrite E. reflexivity.
  - change (tolower 0) with 0.
    destruct (byte c1 =? 0) eqn:E; simpl; [|lia].
    apply Z.eqb_eq in E. rewrite E. reflexivity.
  - pose proof (byte_range c1) as R1. pose proof (byte_range c2) as R2.
    pose proof (tolower_zero (byte c1)) as Z1.
    pose proof (tolower_zero (byte c2)) as Z2.
    pose proof (tolower_range _ R1) as T1.
    pose proof (tolower_range _ R2) as T2.
    destruct (byte c1 =? 0) eqn:E1; destruct (byte c2 =? 0) eqn:E2;
      destruct (tolower (byte c1) - tolower (byte c2) =? 0) eqn:E;
      simpl; rewrite ?E; rewrite ?Z.eqb_eq, ?Z.eqb_neq in *;
      try lia; auto.
Qed.

Lemma lexdiff_antisym k1 k2 : lexdiff k2 k1 = - lexdiff k1 k2.
Proof.
  revert k2. induction k1 as [|x r1 IH]; intros [|y r2]; simpl; try lia.
  destruct (x - y =? 0) eqn:E; destruct (y - x =? 0) eqn:E';
    rewrite ?Z.eqb_eq, ?Z.eqb_neq in *; try lia.
  apply IH.
Qed.

Lemma lexdiff_zero k1 k2 :
  Forall (fun x => 0 < x) k1 -> Forall (fun x => 0 < x) k2 ->
  (lexdiff k1 k2 = 0 <-> k1 = k2).
Proof.
  revert k2. induction k1 as [|x r1 IH]; intros [|y r2] P1 P2; simpl.
  - tauto.
  - inversion P2; subst. split; [lia|discriminate].
  - inversion P1; subst. split; [lia|discriminate].
  - inversion P1; inversion P2; subst.
    destruct (x - y =? 0) eqn:E; rewrite ?Z.eqb_eq, ?Z.eqb_neq in *.
    + rewrite IH by assumption.
      split; [intros ->; f_equal; lia | intros [= _ ->]; reflexivity].
    + split; [lia | intros [= -> _]; lia].
Qed.

(** Transitivity of the induced order, in the three forms used below. *)
Lemma lexdiff_trans k1 k2 k3 :
  Forall (fun x => 0 < x) k1 -> Forall (fun x => 0 < x) k2 ->
  Forall (fun x => 0 < x) k3 ->
  lexdiff k1 k2 <= 0 -> lexdiff k2 k3 <= 0 ->
  lexdiff k1 k3 <= 0 /\
  (lexdiff k1 k2 < 0 \/ lexdiff k2 k3 < 0 -> lexdiff k1 k3 < 0).
Proof.
  revert k2 k3.
  induction k1 as [|x r1 IH]; intros [|y r2] [|z r3] P1 P2 P3; simpl;
    try (inversion P1; subst); try (inversion P2; subst);
    try (inversion P3; subst); try lia.
  destruct (x - y =? 0) eqn:E1; destruct (y - z =? 0) eqn:E2;
    destruct (x - z =? 0) eqn:E3;
    rewrite ?Z.eqb_eq, ?Z.eqb_neq in *; try lia.
  apply IH; assumption.
Qed.

End Order.

(** ** The comparator *)

Section Comparator.

Import Order.

Lemma ci_equalb_spec s t : ci_equalb s t = true <-> ci_equal s t.
Proof.
  unfold ci_equalb, ci_equal.
  destruct (list_eq_dec Z.eq_dec (casefold (cstr s)) (casefold (cstr t)));
    split; intros; congruence.
Qed.

Lemma strcasecmp_zero s t : strcasecmp s t = 0 <-> ci_equal s t.
Proof.
  rewrite strcasecmp_lexdiff.
  apply lexdiff_zero; apply key_positive.
Qed.

Lemma compare_zero a b :
  compare_CKA_desc a b = 0 <-> ci_equal (desc a) (desc b).
Proof. apply strcasecmp_zero. Qed.

Lemma compare_antisym a b : compare_CKA_desc b a = - compare_CKA_desc a b.
Proof.
  unfold compare_CKA_desc. rewrite !strcasecmp_lexdiff.
  apply lexdiff_antisym.
Qed.

Lemma compare_trans a b c :
  compare_CKA_desc a b <= 0 -> compare_CKA_desc b c <= 0 ->
  compare_CKA_desc a c <= 0 /\
  (compare_CKA_desc a b < 0 \/ compare_CKA_desc b c < 0 ->
   compare_CKA_desc a c < 0).
Proof.
  unfold compare_CKA_desc. rewrite !strcasecmp_lexdiff.
  apply lexdiff_trans; apply key_positive.
Qed.

Lemma compare_lt_trans a b c :
  compare_CKA_desc a b < 0 -> compare_CKA_desc b c < 0 ->
  compare_CKA_desc a c < 0.
Proof.
  intros H1 H2. apply (compare_trans a b c); lia.
Qed.

(** Case variants of a string are equal to it up to case. *)
Lemma casefold_cstr_map_case f s :
  (forall c, 0 <= c < 256 -> 0 <= f c < 256) ->
  (forall c, f c = 0 <-> c = 0) ->
  (forall c, tolower (f c) = tolower c) ->
  casefold (cstr (map_case f s)) = casefold (cstr s).
Proof.
  intros Hr Hz Hl. induction s as [|c r IH]; simpl; [reflexivity|].
  pose proof (byte_range c) as R. specialize (Hr _ R).
  assert (B : byte (ascii_of_N (Z.to_N (f (byte c)))) = f (byte c)).
  { unfold byte at 1. rewrite N_ascii_embedding by lia. lia. }
  rewrite B.
  destruct (byte c =? 0) eqn:E; rewrite ?Z.eqb_eq, ?Z.eqb_neq in E.
  - apply (proj2 (Hz _)) in E. rewrite E. reflexivity.
  - destruct (f (byte c) =? 0) eqn:E'; rewrite ?Z.eqb_eq, ?Z.eqb_neq in E'.
    + apply (proj1 (Hz _)) in E'. contradiction.
    + simpl. rewrite B, Hl, IH. reflexivity.
Qed.

Lemma ci_equal_uppercase s : ci_equal (uppercase s) s.
Proof.
  apply casefold_cstr_map_case.
  - intros c H. unfold toupper.
    destruct ((97 <=? c) && (c <=? 122)) eqn:E; [|lia].
    apply andb_true_iff in E. lia.
  - intros c. unfold toupper.
    destruct ((97 <=? c) && (c <=? 122)) eqn:E; [|tauto].
    apply andb_true_iff in E. lia.
  - apply tolower_toupper.
Qed.

Lemma ci_equal_lowercase s : ci_equal (lowercase s) s.
Proof.
  apply casefold_cstr_map_case.
  - apply tolower_range.
  - apply tolower_zero.
  - apply tolower_idem.
Qed.

(** Case folding is all the comparison forgives: a space before a
    string, or after a string without an inner NUL, makes it another
    string. *)
Lemma leading_space_differs s : ~ ci_equal (String " " s) s.
Proof.
  unfold ci_equal. cbn [cstr]. change (byte " " =? 0) with false.
  cbn [casefold]. intros H.
  apply (f_equal (@List.length Z)) in H. cbn [List.length] in H. lia.
Qed.

Lemma trailing_space_differs s : cstr s = s -> ~ ci_equal (s ++ " ") s.
Proof.
  unfold ci_equal. intros Hs H.
  assert (L : forall r, cstr r = r ->
            List.length (casefold (cstr (r ++ " ")))
            = S (List.length (casefold (cstr r)))).
  { induction r as [|c r IH]; cbn [cstr append]; [reflexivity|].
    destruct (byte c =? 0); [discriminate|].
    intros [= Hr]. cbn [casefold List.length]. rewrite IH by exact Hr.
    reflexivity. }
  specialize (L s Hs). rewrite H in L. lia.
Qed.

End Comparator.

(** ** Sorted tables *)

Section SortedTable.

Variable tbl : list AttributeDesc.

Lemma strictly_ascending_Sorted l :
  strictly_ascending l = true -> Sorted lt_desc l.
Proof.
  induction l as [|a [|b r] IH]; intros H.
  - constructor.
  - repeat constructor.
  - cbn [strictly_ascending] in H. apply andb_true_iff in H.
    destruct H as [H1 H2]. apply Z.ltb_lt in H1.
    constructor; [apply IH; exact H2 | constructor; exact H1].
Qed.

Lemma StronglySorted_nth l :
  StronglySorted lt_desc l ->
  forall i j a b, (i < j)%nat ->
    nth_error l i = Some a -> nth_error l j = Some b -> lt_desc a b.
Proof.
  induction 1 as [|x r _ IH Hx]; intros i j a b Hij Hi Hj.
  - destruct i; discriminate.
  - destruct j as [|j]; [lia|]. simpl in Hj.
    destruct i as [|i]; simpl in Hi.
    + injection Hi as <-.
      rewrite Forall_forall in Hx. apply Hx.
      eapply nth_error_In; eassumption.
    + apply (IH i j); [lia | assumption..].
Qed.

Hypothesis tbl_sorted : strictly_ascending tbl = true.

(** Entries at increasing positions compare strictly negative. *)
Lemma sorted_nth i j a b :
  (i < j)%nat -> nth_error tbl i = Some a -> nth_error tbl j = Some b ->
  compare_CKA_desc a b < 0.
Proof.
  apply (StronglySorted_nth tbl).
  apply Sorted_StronglySorted.
  - intros x y z. apply compare_lt_trans.
  - apply strictly_ascending_Sorted, tbl_sorted.
Qed.

(** Two positions whose entries compare equal are one position. *)
Lemma sorted_equal_same i j a b :
  nth_error tbl i = Some a -> nth_error tbl j = Some b ->
  compare_CKA_desc a b = 0 -> i = j.
Proof.
  intros Hi Hj H0.
  destruct (Nat.lt_trichotomy i j) as [L | [E | L]]; [|exact E|].
  - pose proof (sorted_nth _ _ _ _ L Hi Hj). lia.
  - pose proof (sorted_nth _ _ _ _ L Hj Hi) as H.
    rewrite compare_antisym in H. lia.
Qed.

(** A key below the entry at [i] is below every later entry, a key above
    it is above every earlier one, and a key equal to it is equal to no
    other. *)
Lemma sorted_key_position key i j p e :
  nth_error tbl i = Some p -> nth_error tbl j = Some e ->
  compare_CKA_desc key e = 0 ->
  (compare_CKA_desc key p < 0 -> (j < i)%nat) /\
  (compare_CKA_desc key p > 0 -> (i < j)%nat) /\
  (compare_CKA_desc key p = 0 -> i = j).
Proof.
  intros Hi Hj H0.
  assert (Hek : compare_CKA_desc e key = 0)
    by (rewrite compare_antisym; lia).
  destruct (Nat.lt_trichotomy i j) as [L | [E | L]].
  - pose proof (sorted_nth _ _ _ _ L Hi Hj) as Hpe.
    destruct (compare_trans p e key) as [_ T]; [lia..|].
    rewrite (compare_antisym key p) in T. lia.
  - subst j. rewrite Hi in Hj. injection Hj as <-. lia.
  - pose proof (sorted_nth _ _ _ _ L Hj Hi) as Hep.
    destruct (compare_trans key e p) as [_ T]; [lia..|]. lia.
Qed.

End SortedTable.

(** ** The loop of [bsearch] *)

Section BinarySearch.

Variable key : AttributeDesc.
Variable compar : AttributeDesc -> AttributeDesc -> Z.

Lemma midpoint_bounds l u :
  (l < u)%nat -> (l <= (l + u) / 2 < u)%nat.
Proof.
  intros H.
  pose proof (Nat.div_mod_eq (l + u) 2) as D.
  pose proof (Nat.mod_upper_bound (l + u) 2). lia.
Qed.

(** With fuel for [u - l] rounds and the final test, the loop reads
    inside the array only, leaves the memory as it found it, and returns
    either nothing or an element of [l, u) the comparator reports equal
    to the key. *)
Lemma bsearch_loop_run fuel : forall l u m,
  (u <= List.length (_a m))%nat -> (u - l < fuel)%nat ->
  exists r,
    bsearch_loop fuel key compar l u m = Done r m /\
    forall p, r = Some p ->
      compar key p = 0 /\
      exists idx, (l <= idx < u)%nat /\ nth_error (_a m) idx = Some p.
Proof.
  induction fuel as [|fuel IH]; intros l u m Hu Hf; [lia|].
  cbn [bsearch_loop].
  destruct (l <? u)%nat eqn:Hlu.
  - apply Nat.ltb_lt in Hlu.
    pose proof (midpoint_bounds l u Hlu) as Hmid.
    set (idx := ((l + u) / 2)%nat) in *.
    unfold bind, load_a.
    destruct (nth_error (_a m) idx) as [p|] eqn:Hp.
    2:{ apply nth_error_None in Hp. lia. }
    destruct (compar key p <? 0) eqn:Hneg.
    + destruct (IH l idx m) as (r & Hr & Hsome); [lia..|].
      exists r. split; [exact Hr|].
      intros q Hq. destruct (Hsome q Hq) as (H0 & j & Hj & Hnth).
      split; [exact H0|]. exists j. split; [lia | exact Hnth].
    + destruct (compar key p >? 0) eqn:Hpos.
      * destruct (IH (idx + 1)%nat u m) as (r & Hr & Hsome); [lia..|].
        exists r. split; [exact Hr|].
        intros q Hq. destruct (Hsome q Hq) as (H0 & j & Hj & Hnth).
        split; [exact H0|]. exists j. split; [lia | exact Hnth].
      * exists (Some p). split; [reflexivity|].
        intros q [= <-]. apply Z.ltb_ge in Hneg.
        rewrite Z.gtb_ltb in Hpos. apply Z.ltb_ge in Hpos.
        split; [lia|]. exists idx. split; [lia | exact Hp].
  - exists None. split; [reflexivity | discriminate].
Qed.

(** More fuel than the loop needs changes nothing. *)
Lemma bsearch_loop_fuel fuel fuel' : forall l u m,
  (u <= List.length (_a m))%nat -> (u - l < fuel)%nat -> (u - l < fuel')%nat ->
  bsearch_loop fuel key compar l u m = bsearch_loop fuel' key compar l u m.
Proof.
  revert fuel'.
  induction fuel as [|fuel IH]; intros [|fuel'] l u m Hu Hf Hf'; try lia.
  cbn [bsearch_loop].
  destruct (l <? u)%nat eqn:Hlu; [|reflexivity].
  apply Nat.ltb_lt in Hlu.
  pose proof (midpoint_bounds l u Hlu) as Hmid.
  unfold bind, load_a.
  destruct (nth_error (_a m) ((l + u) / 2)) as [p|]; [|reflexivity].
  destruct (compar key p <? 0); [apply IH; lia|].
  destruct (compar key p >? 0); [apply IH; lia | reflexivity].
Qed.

End BinarySearch.

Section BinarySearchSorted.

Variable key : AttributeDesc.

(** On a strictly ascending table the loop returns the entry equal to the
    key whenever there is one between the bounds. *)
Lemma bsearch_loop_finds fuel : forall l u m j e,
  strictly_ascending (_a m) = true ->
  (u <= List.length (_a m))%nat -> (u - l < fuel)%nat ->
  (l <= j < u)%nat -> nth_error (_a m) j = Some e ->
  compare_CKA_desc key e = 0 ->
  bsearch_loop fuel key compare_CKA_desc l u m = Done (Some e) m.
Proof.
  induction fuel as [|fuel IH]; intros l u m j e Hs Hu Hf Hj He H0; [lia|].
  cbn [bsearch_loop].
  replace (l <? u)%nat with true by (symmetry; apply Nat.ltb_lt; lia).
  pose proof (midpoint_bounds l u ltac:(lia)) as Hmid.
  set (idx := ((l + u) / 2)%nat) in *.
  unfold bind, load_a.
  destruct (nth_error (_a m) idx) as [p|] eqn:Hp.
  2:{ apply nth_error_None in Hp. lia. }
  destruct (sorted_key_position (_a m) Hs key idx j p e Hp He H0)
    as (Hlt & Hgt & Heq).
  destruct (compare_CKA_desc key p <? 0) eqn:Hneg.
  - apply Z.ltb_lt in Hneg. apply (IH l idx m j e); auto; lia.
  - apply Z.ltb_ge in Hneg.
    destruct (compare_CKA_desc key p >? 0) eqn:Hpos.
    + rewrite Z.gtb_ltb in Hpos. apply Z.ltb_lt in Hpos.
      apply (IH (idx + 1)%nat u m j e); auto; lia.
    + rewrite Z.gtb_ltb in Hpos. apply Z.ltb_ge in Hpos.
      assert (idx = j) by (apply Heq; lia). subst j.
      rewrite Hp in He. injection He as <-. reflexivity.
Qed.

End BinarySearchSorted.

(** ** The lookup *)

Section Lookup.

Variable tbl : list AttributeDesc.
Variable name : string.

(** The lookup is the search followed by one field read. *)
Lemma lookup_unfold r m' :
  bsearch (candidate name) (List.length tbl) compare_CKA_desc (Mem tbl name)
    = Done r m' ->
  get_attribute_type_from_name (Mem tbl name)
    = Done (match r with Some e => type e | None => 0xFFFFFFFF end) m'.
Proof.
  intros H. unfold get_attribute_type_from_name, bind, sizeof_a, load_name.
  cbn [_a name_buf]. rewrite H. reflexivity.
Qed.

(** The search always ends, without a fault and with the memory intact;
    what it returns is an entry of the table whose name equals [name] up
    to case, or nothing. *)
Lemma search_runs :
  exists r,
    bsearch (candidate name) (List.length tbl) compare_CKA_desc (Mem tbl name)
      = Done r (Mem tbl name) /\
    forall p, r = Some p -> In p tbl /\ ci_equal name (desc p).
Proof.
  destruct (bsearch_loop_run (candidate name) compare_CKA_desc
              (S (List.length tbl)) 0 (List.length tbl) (Mem tbl name))
    as (r & Hr & Hsome); cbn [_a]; [lia..|].
  exists r. split; [exact Hr|].
  intros p Hp. destruct (Hsome p Hp) as (H0 & idx & _ & Hnth).
  split.
  - eapply nth_error_In. exact Hnth.
  - apply compare_zero in H0. exact H0.
Qed.

(** The lookup always ends with a value and the memory intact; the value
    is the code of an entry named [name] up to case, or [0xFFFFFFFF] when
    the search returned nothing. *)
Lemma lookup_runs :
  exists v,
    get_attribute_type_from_name (Mem tbl name) = Done v (Mem tbl name) /\
    (v = 0xFFFFFFFF \/
     exists e, In e tbl /\ ci_equal name (desc e) /\ v = type e).
Proof.
  destruct search_runs as (r & Hr & Hsome).
  apply lookup_unfold in Hr.
  destruct r as [p|].
  - exists (type p). split; [exact Hr|].
    right. exists p. destruct (Hsome p eq_refl). auto.
  - exists 0xFFFFFFFF. split; [exact Hr | left; reflexivity].
Qed.

(** On a strictly ascending table an entry named [name] up to case is
    found, and its code returned. *)
Lemma lookup_finds e :
  strictly_ascending tbl = true ->
  In e tbl -> ci_equal name (desc e) ->
  get_attribute_type_from_name (Mem tbl name) = Done (type e) (Mem tbl name).
Proof.
  intros Hs Hin Hci.
  apply In_nth_error in Hin. destruct Hin as [j Hj].
  assert (Hlen : (j < List.length tbl)%nat)
    by (apply nth_error_Some; congruence).
  apply (lookup_unfold (Some e)).
  apply (bsearch_loop_finds (candidate name) (S (List.length tbl)) 0
           (List.length tbl) (Mem tbl name) j e); cbn [_a]; auto; try lia.
  apply compare_zero. exact Hci.
Qed.

(** When no entry is named [name] up to case the sentinel is returned,
    whatever the order of the table. *)
Lemma lookup_misses :
  no_entry_named tbl name ->
  get_attribute_type_from_name (Mem tbl name)
    = Done 0xFFFFFFFF (Mem tbl name).
Proof.
  intros Hno.
  destruct search_runs as (r & Hr & Hsome).
  apply lookup_unfold in Hr.
  destruct r as [p|]; [|exact Hr].
  destruct (Hsome p eq_refl) as [Hin Hci].
  exfalso. exact (Hno p Hin Hci).
Qed.

End Lookup.

Lemma no_entry_namedb_spec tbl s :
  no_entry_namedb tbl s = true <-> no_entry_named tbl s.
Proof.
  unfold no_entry_namedb, no_entry_named. rewrite forallb_forall.
  split; intros H e Hin.
  - specialize (H e Hin). apply negb_true_iff in H.
    intros Hci. apply ci_equalb_spec in Hci. congruence.
  - apply negb_true_iff. destruct (ci_equalb s (desc e)) eqn:E; [|reflexivity].
    apply ci_equalb_spec in E. exfalso. exact (H e Hin E).
Qed.

(** ** The reference lookup *)

Lemma resolve_linear_spec_cases tbl name :
  (exists e, In e tbl /\ ci_equal name (desc e) /\
             resolve_linear_spec tbl name = type e) \/
  (no_entry_named tbl name /\
   resolve_linear_spec tbl name = NOT_FOUND_SENTINEL).
Proof.
  induction tbl as [|e rest IH]; cbn [resolve_linear_spec].
  - right. split; [intros e [] | reflexivity].
  - destruct (ci_equalb name (desc e)) eqn:E.
    + left. exists e. apply ci_equalb_spec in E.
      split; [left; reflexivity | auto].
    + destruct IH as [(e' & Hin & Hci & Hv) | (Hno & Hv)].
      * left. exists e'. split; [right; exact Hin | auto].
      * right. split; [|exact Hv].
        intros e' [<- | Hin] Hci.
        -- apply ci_equalb_spec in Hci. congruence.
        -- exact (Hno e' Hin Hci).
Qed.

(** ** Memory *)

(** A run of the loop that ends leaves the memory as it was, whatever
    the bounds, the fuel and the comparator. *)
Lemma bsearch_loop_frame key compar fuel : forall l u m r m',
  bsearch_loop fuel key compar l u m = Done r m' -> m' = m.
Proof.
  induction fuel as [|fuel IH]; intros l u m r m'; cbn [bsearch_loop];
    [discriminate|].
  destruct (l <? u)%nat; [|intros [= _ <-]; reflexivity].
  unfold bind, load_a.
  destruct (nth_error (_a m) ((l + u) / 2)) as [p|]; [|discriminate].
  destruct (compar key p <? 0); [apply IH|].
  destruct (compar key p >? 0); [apply IH|].
  intros [= _ <-]. reflexivity.
Qed.

Lemma lookup_frame m v m' :
  get_attribute_type_from_name m = Done v m' -> m' = m.
Proof.
  unfold get_attribute_type_from_name, bind, sizeof_a, load_name, bsearch.
  destruct (bsearch_loop _ _ _ _ _ m) as [r m1| |] eqn:E; try discriminate.
  apply bsearch_loop_frame in E. subst m1.
  intros [= _ <-]. reflexivity.
Qed.

Lemma memory_eta m : Mem (_a m) (name_buf m) = m.
Proof. destruct m. reflexivity. Qed.

(** ** The claims *)

(** C1: on a table that is strictly ascending under the case-insensitive
    comparator, the lookup of any string equal up to ASCII case to the
    name of an entry of the table returns that entry's code; the name all
    in upper case and all in lower case are two such strings. *)
Theorem resolve_entry_any_case tbl e :
  strictly_ascending tbl = true ->
  In e tbl ->
  (forall s, ci_equal s (desc e) ->
     get_attribute_type_from_name (Mem tbl s) = Done (type e) (Mem tbl s)) /\
  ci_equal (uppercase (desc e)) (desc e) /\
  ci_equal (lowercase (desc e)) (desc e).
Proof.
  intros Hs Hin. split; [|split].
  - intros s Hci. apply lookup_finds; assumption.
  - apply ci_equal_uppercase.
  - apply ci_equal_lowercase.
Qed.

Lemma resolve_entry_any_case_witness :
  strictly_ascending sample_a = true /\
  In {| type := 0x3; desc := "CKA_LABEL" |} sample_a /\
  ci_equal "Cka_Label" "CKA_LABEL" /\
  get_attribute_type_from_name (Mem sample_a "Cka_Label")
    = Done 0x3 (Mem sample_a "Cka_Label").
Proof.
  assert (Hin : In {| type := 0x3; desc := "CKA_LABEL" |} sample_a)
    by (simpl; tauto).
  split; [reflexivity | ].
  split; [exact Hin | ].
  split; [reflexivity | ].
  apply (resolve_entry_any_case sample_a
           {| type := 0x3; desc := "CKA_LABEL" |} eq_refl Hin).
  reflexivity.
Defined.

(** C2: on a strictly ascending table, the lookup of a string that is
    equal up to case to no name of the table returns the sentinel
    0xFFFFFFFF; case folding is the only normalisation, so a table name
    with a space put before or after it is such a string. *)
Theorem resolve_unknown_sentinel tbl s :
  strictly_ascending tbl = true ->
  no_entry_named tbl s ->
  get_attribute_type_from_name (Mem tbl s)
    = Done NOT_FOUND_SENTINEL (Mem tbl s).
Proof.
  intros _ Hno. apply lookup_misses. exact Hno.
Qed.

Lemma resolve_unknown_sentinel_witness :
  strictly_ascending sample_a = true /\
  no_entry_named sample_a " CKA_LABEL" /\
  get_attribute_type_from_name (Mem sample_a " CKA_LABEL")
    = Done 0xFFFFFFFF (Mem sample_a " CKA_LABEL").
Proof.
  assert (Hno : no_entry_named sample_a " CKA_LABEL")
    by (apply no_entry_namedb_spec; reflexivity).
  split; [reflexivity | ].
  split; [exact Hno | ].
  apply (resolve_unknown_sentinel sample_a " CKA_LABEL");
    [reflexivity | exact Hno].
Defined.

(** C3: on a strictly ascending table the binary-search lookup returns
    what the linear reference lookup returns: the code of the first entry
    whose name equals the input up to case, or 0xFFFFFFFF. *)
Theorem resolve_refines_linear_scan tbl name :
  strictly_ascending tbl = true ->
  get_attribute_type_from_name (Mem tbl name)
    = Done (resolve_linear_spec tbl name) (Mem tbl name).
Proof.
  intros Hs.
  destruct (resolve_linear_spec_cases tbl name)
    as [(e & Hin & Hci & ->) | (Hno & ->)].
  - apply lookup_finds; assumption.
  - apply lookup_misses. exact Hno.
Qed.

Lemma resolve_refines_linear_scan_witness :
  strictly_ascending sample_a = true /\
  get_attribute_type_from_name (Mem sample_a "cka_key_type")
    = Done (resolve_linear_spec sample_a "cka_key_type")
        (Mem sample_a "cka_key_type").
Proof.
  split; [reflexivity | ].
  apply (resolve_refines_linear_scan sample_a "cka_key_type"). reflexivity.
Defined.

(** C5: on a strictly ascending table none of whose names is empty (the
    empty string equals no table name up to case), the lookup of the
    empty string returns the sentinel 0xFFFFFFFF. *)
Theorem resolve_empty_string tbl :
  strictly_ascending tbl = true ->
  no_entry_named tbl "" ->
  get_attribute_type_from_name (Mem tbl "")
    = Done NOT_FOUND_SENTINEL (Mem tbl "").
Proof.
  intros _ Hno. apply lookup_misses. exact Hno.
Qed.

Lemma resolve_empty_string_witness :
  strictly_ascending sample_a = true /\
  no_entry_named sample_a "" /\
  get_attribute_type_from_name (Mem sample_a "")
    = Done 0xFFFFFFFF (Mem sample_a "").
Proof.
  assert (Hno : no_entry_named sample_a "")
    by (apply no_entry_namedb_spec; reflexivity).
  split; [reflexivity | ].
  split; [exact Hno | ].
  apply (resolve_empty_string sample_a); [reflexivity | exact Hno].
Defined.

(** C7: for every table and every input string the lookup ends with a
    value, without a fault and without running out of fuel; the value is
    the sentinel or the code of an entry of the table; and the search
    ends in the same way on any larger amount of fuel. *)
Theorem resolve_total tbl name :
  (exists v,
      get_attribute_type_from_name (Mem tbl name) = Done v (Mem tbl name) /\
      (v = NOT_FOUND_SENTINEL \/ exists e, In e tbl /\ v = type e)) /\
  (forall fuel, (List.length tbl < fuel)%nat ->
      bsearch_loop fuel (candidate name)
        compare_CKA_desc 0 (List.length tbl) (Mem tbl name)
      = bsearch (candidate name) (List.length tbl)
          compare_CKA_desc (Mem tbl name)).
Proof.
  split.
  - destruct (lookup_runs tbl name) as (v & Hv & [-> | (e & Hin & _ & ->)]).
    + exists 0xFFFFFFFF. split; [exact Hv | left; reflexivity].
    + exists (type e). split; [exact Hv | right; exists e; auto].
  - intros fuel Hf. unfold bsearch.
    apply bsearch_loop_fuel; cbn [_a]; lia.
Qed.

(** C8: any number of calls made one after the other on the same input
    and table return one and the same value, the value of a single
    call. *)
Theorem resolve_deterministic tbl name n :
  exists v,
    get_attribute_type_from_name (Mem tbl name) = Done v (Mem tbl name) /\
    repeated_calls n (Mem tbl name) = Done (repeat v n) (Mem tbl name).
Proof.
  destruct (lookup_runs tbl name) as (v & Hv & _).
  exists v. split; [exact Hv|].
  induction n as [|n IH]; cbn [repeated_calls repeat]; [reflexivity|].
  unfold bind at 1. rewrite Hv.
  unfold bind at 1. rewrite IH. reflexivity.
Qed.

(** C9: whatever the table and the input string, the value the lookup
    returns is the sentinel 0xFFFFFFFF or the [type] field of an entry
    of the table. *)
Theorem resolve_value_from_table m :
  match get_attribute_type_from_name m with
  | Done v _ => In v (NOT_FOUND_SENTINEL :: map type (_a m))
  | Fault | Timeout => False
  end.
Proof.
  destruct (lookup_runs (_a m) (name_buf m)) as (v & Hv & Hcases).
  rewrite memory_eta in Hv. rewrite Hv.
  destruct Hcases as [-> | (e & Hin & _ & ->)].
  - left. reflexivity.
  - right. apply in_map. exact Hin.
Qed.

(** C10: a call leaves the buffer its argument points to and the table
    exactly as they were before the call. *)
Theorem resolve_frame m :
  match get_attribute_type_from_name m with
  | Done _ m' => name_buf m' = name_buf m /\ _a m' = _a m
  | Fault | Timeout => False
  end.
Proof.
  destruct (lookup_runs (_a m) (name_buf m)) as (v & Hv & _).
  rewrite memory_eta in Hv. rewrite Hv. split; reflexivity.
Qed.

(** ** The preconditions at work *)

(** On a table that is not sorted the search can miss an entry that the
    linear scan finds. *)
Example unsorted_false_negative :
  let tbl := [ {| type := 0x3; desc := "CKA_LABEL" |};
               {| type := 0x0; desc := "CKA_CLASS" |};
               {| type := 0x102; desc := "CKA_ID" |} ] in
  strictly_ascending tbl = false /\
  resolve_linear_spec tbl "CKA_LABEL" = 0x3 /\
  get_attribute_type_from_name (Mem tbl "CKA_LABEL")
    = Done 0xFFFFFFFF (Mem tbl "CKA_LABEL").
Proof. repeat split. Qed.

(** A table with an entry of empty name answers the empty string with
    that entry's code. *)
Example empty_name_entry :
  let tbl := [ {| type := 0x7; desc := "" |};
               {| type := 0x0; desc := "CKA_CLASS" |} ] in
  strictly_ascending tbl = true /\
  get_attribute_type_from_name (Mem tbl "") = Done 0x7 (Mem tbl "").
Proof. repeat split. Qed.

(** The code does not look at the codes it returns: in a table with an
    entry of code 0xFFFFFFFF a hit on that entry and a miss give the same
    value. *)
Example sentinel_code_entry :
  let tbl := [ {| type := 0x0; desc := "CKA_CLASS" |};
               {| type := 0xFFFFFFFF; desc := "CKA_ID" |} ] in
  strictly_ascending tbl = true /\
  get_attribute_type_from_name (Mem tbl "CKA_ID")
    = Done 0xFFFFFFFF (Mem tbl "CKA_ID") /\
  get_attribute_type_from_name (Mem tbl "CKA_NONE")
    = Done 0xFFFFFFFF (Mem tbl "CKA_NONE").
Proof. repeat split. Qed.

(** The order of the table has to be that of [strcasecmp]: two names in
    the order of their bytes, where ['D'] comes before ['_'], are in
    descending order for the comparator, which sees ['d'] after ['_'],
    and the search misses one of them. *)
Example bytewise_order_misses :
  let tbl := [ {| type := 0x180; desc := "CKA_ECDSA_PARAMS" |};
               {| type := 0x180; desc := "CKA_EC_PARAMS" |};
               {| type := 0x181; desc := "CKA_EC_POINT" |} ] in
  strictly_ascending tbl = false /\
  get_attribute_type_from_name (Mem tbl "CKA_ECDSA_PARAMS")
    = Done 0xFFFFFFFF (Mem tbl "CKA_ECDSA_PARAMS").
Proof. repeat split. Qed.

(** A table name with a space after it is not found. *)
Example trailing_space :
  get_attribute_type_from_name (Mem sample_a "CKA_LABEL ")
  = Done 0xFFFFFFFF (Mem sample_a "CKA_LABEL ").
Proof. reflexivity. Qed.

(** * Further properties of the lookup *)

(** ** Tables that are not strictly ascending *)

Section WeaklySorted.

Variable tbl : list AttributeDesc.
Hypothesis tbl_ascending : ascending tbl = true.

Lemma compare_refl a : compare_CKA_desc a a = 0.
Proof. apply compare_zero. reflexivity. Qed.

Lemma ascending_Sorted l : ascending l = true -> Sorted le_desc l.
Proof.
  induction l as [|a [|b r] IH]; intros H.
  - constructor.
  - repeat constructor.
  - cbn [ascending] in H. apply andb_true_iff in H.
    destruct H as [H1 H2]. apply Z.leb_le in H1.
    constructor; [apply IH; exact H2 | constructor; exact H1].
Qed.

Lemma StronglySorted_le_nth l :
  StronglySorted le_desc l ->
  forall i j a b, (i <= j)%nat ->
    nth_error l i = Some a -> nth_error l j = Some b -> le_desc a b.
Proof.
  induction 1 as [|x r _ IH Hx]; intros i j a b Hij Hi Hj.
  - destruct i; discriminate.
  - destruct i as [|i]; simpl in Hi.
    + injection Hi as <-. destruct j as [|j]; simpl in Hj.
      * injection Hj as <-. unfold le_desc. rewrite compare_refl. lia.
      * rewrite Forall_forall in Hx. apply Hx.
        eapply nth_error_In; eassumption.
    + destruct j as [|j]; [lia|]. simpl in Hj.
      apply (IH i j); [lia | assumption..].
Qed.

(** Entries at ascending positions compare negative or equal. *)
Lemma ascending_nth i j a b :
  (i <= j)%nat -> nth_error tbl i = Some a -> nth_error tbl j = Some b ->
  compare_CKA_desc a b <= 0.
Proof.
  apply (StronglySorted_le_nth tbl).
  apply Sorted_StronglySorted.
  - intros x y z Hxy Hyz. apply (compare_trans x y z); assumption.
  - apply ascending_Sorted, tbl_ascending.
Qed.

(** A match at [j] lies on the side of [i] the comparison points to. *)
Lemma ascending_key_side key i j p e :
  nth_error tbl i = Some p -> nth_error tbl j = Some e ->
  compare_CKA_desc key e = 0 ->
  (compare_CKA_desc key p < 0 -> (j < i)%nat) /\
  (compare_CKA_desc key p > 0 -> (i < j)%nat).
Proof.
  intros Hi Hj H0.
  assert (Hek : compare_CKA_desc e key = 0)
    by (rewrite compare_antisym; lia).
  split; intros Hc.
  - destruct (Nat.lt_ge_cases j i) as [L | G]; [exact L|].
    pose proof (ascending_nth _ _ _ _ G Hi Hj) as Hpe.
    destruct (compare_trans p e key) as [T _]; [lia..|].
    rewrite (compare_antisym key p) in T. lia.
  - destruct (Nat.lt_ge_cases i j) as [L | G]; [exact L|].
    pose proof (ascending_nth _ _ _ _ G Hj Hi) as Hep.
    destruct (compare_trans key e p) as [T _]; [lia..|]. lia.
Qed.

End WeaklySorted.

(** On an ascending table the loop returns an entry equal to the key
    whenever there is one between the bounds. *)
Lemma bsearch_loop_hits key fuel : forall l u m j e,
  ascending (_a m) = true ->
  (u <= List.length (_a m))%nat -> (u - l < fuel)%nat ->
  (l <= j < u)%nat -> nth_error (_a m) j = Some e ->
  compare_CKA_desc key e = 0 ->
  exists p,
    bsearch_loop fuel key compare_CKA_desc l u m = Done (Some p) m /\
    In p (_a m) /\ compare_CKA_desc key p = 0.
Proof.
  induction fuel as [|fuel IH]; intros l u m j e Hs Hu Hf Hj He H0; [lia|].
  cbn [bsearch_loop].
  replace (l <? u)%nat with true by (symmetry; apply Nat.ltb_lt; lia).
  pose proof (midpoint_bounds l u ltac:(lia)) as Hmid.
  set (idx := ((l + u) / 2)%nat) in *.
  unfold bind, load_a.
  destruct (nth_error (_a m) idx) as [p|] eqn:Hp.
  2:{ apply nth_error_None in Hp. lia. }
  destruct (ascending_key_side (_a m) Hs key idx j p e Hp He H0)
    as (Hlt & Hgt).
  destruct (compare_CKA_desc key p <? 0) eqn:Hneg.
  - apply Z.ltb_lt in Hneg. apply (IH l idx m j e); auto; lia.
  - apply Z.ltb_ge in Hneg.
    destruct (compare_CKA_desc key p >? 0) eqn:Hpos.
    + rewrite Z.gtb_ltb in Hpos. apply Z.ltb_lt in Hpos.
      apply (IH (idx + 1)%nat u m j e); auto; lia.
    + rewrite Z.gtb_ltb in Hpos. apply Z.ltb_ge in Hpos.
      exists p. split; [reflexivity|]. split; [|lia].
      eapply nth_error_In. exact Hp.
Qed.

(** X4: on a table in ascending order in which names equal up to case
    may repeat, a name that some entry carries up to case is always
    found: the lookup returns the code of an entry with that name. *)
Theorem lookup_hits_among_duplicates tbl name e :
  ascending tbl = true ->
  In e tbl ->
  ci_equal name (desc e) ->
  exists e',
    In e' tbl /\ ci_equal name (desc e') /\
    get_attribute_type_from_name (Mem tbl name)
      = Done (type e') (Mem tbl name).
Proof.
  intros Hs Hin Hci.
  apply In_nth_error in Hin. destruct Hin as [j Hj].
  assert (Hlen : (j < List.length tbl)%nat)
    by (apply nth_error_Some; congruence).
  destruct (bsearch_loop_hits (candidate name) (S (List.length tbl)) 0
              (List.length tbl) (Mem tbl name) j e)
    as (p & Hrun & Hp & H0); cbn [_a]; auto; try lia.
  { apply compare_zero. exact Hci. }
  exists p. split; [exact Hp|]. split.
  - apply compare_zero in H0. exact H0.
  - exact (lookup_unfold tbl name (Some p) _ Hrun).
Qed.

Lemma lookup_hits_among_duplicates_witness :
  ascending sample_dup = true /\
  In {| type := 0x999; desc := "cka_id" |} sample_dup /\
  ci_equal "Cka_Id" "cka_id" /\
  exists e',
    In e' sample_dup /\ ci_equal "Cka_Id" (desc e') /\
    get_attribute_type_from_name (Mem sample_dup "Cka_Id")
      = Done (type e') (Mem sample_dup "Cka_Id").
Proof.
  assert (Hin : In {| type := 0x999; desc := "cka_id" |} sample_dup)
    by (simpl; tauto).
  split; [reflexivity | ].
  split; [exact Hin | ].
  split; [reflexivity | ].
  apply (lookup_hits_among_duplicates sample_dup "Cka_Id"
           {| type := 0x999; desc := "cka_id" |} eq_refl Hin).
  reflexivity.
Defined.

(** ** What a lookup can return on any table *)

(** X1: whatever the order of the table, the lookup never answers with
    an entry of another name: it returns 0xFFFFFFFF or the code of an
    entry whose name equals the input up to case. *)
Theorem lookup_never_wrong_entry tbl name :
  exists v,
    get_attribute_type_from_name (Mem tbl name) = Done v (Mem tbl name) /\
    (v = 0xFFFFFFFF \/
     exists e, In e tbl /\ ci_equal name (desc e) /\ v = type e).
Proof. apply lookup_runs. Qed.

(** ** The input counts up to case only *)

(** Two keys the comparator cannot tell apart drive the loop the same
    way, whatever the buffer holds. *)
Lemma bsearch_loop_key_ext key key' compar fuel : forall l u m m' r,
  _a m = _a m' ->
  (forall p, compar key p = compar key' p) ->
  bsearch_loop fuel key compar l u m = Done r m ->
  bsearch_loop fuel key' compar l u m' = Done r m'.
Proof.
  induction fuel as [|fuel IH]; intros l u m m' r Ha Hk; cbn [bsearch_loop];
    [discriminate|].
  destruct (l <? u)%nat; [|intros [= <-]; reflexivity].
  unfold bind, load_a. rewrite <- Ha.
  destruct (nth_error (_a m) ((l + u) / 2)) as [p|]; [|discriminate].
  rewrite <- Hk.
  destruct (compar key p <? 0); [apply IH; assumption|].
  destruct (compar key p >? 0); [apply IH; assumption|].
  intros [= <-]. reflexivity.
Qed.

(** X2: on any table, sorted or not, two inputs equal up to ASCII case
    get the same answer. *)
Theorem lookup_case_insensitive tbl s s' :
  ci_equal s s' ->
  exists v,
    get_attribute_type_from_name (Mem tbl s) = Done v (Mem tbl s) /\
    get_attribute_type_from_name (Mem tbl s') = Done v (Mem tbl s').
Proof.
  intros Hci.
  destruct (search_runs tbl s) as (r & Hr & _).
  assert (Hr' : bsearch (candidate s') (List.length tbl) compare_CKA_desc
                  (Mem tbl s') = Done r (Mem tbl s')).
  { unfold bsearch in *.
    apply (bsearch_loop_key_ext (candidate s) (candidate s')
             compare_CKA_desc _ _ _ (Mem tbl s) (Mem tbl s') r);
      [reflexivity | | exact Hr].
    intros p. unfold compare_CKA_desc, candidate. cbn [desc].
    rewrite !Order.strcasecmp_lexdiff. unfold fold_key.
    unfold ci_equal in Hci. rewrite Hci. reflexivity. }
  exists (match r with Some e => type e | None => 0xFFFFFFFF end).
  split; apply lookup_unfold; assumption.
Qed.

Lemma lookup_case_insensitive_witness :
  ci_equal "cka_VALUE" "Cka_Value" /\
  exists v,
    get_attribute_type_from_name (Mem sample_a "cka_VALUE")
      = Done v (Mem sample_a "cka_VALUE") /\
    get_attribute_type_from_name (Mem sample_a "Cka_Value")
      = Done v (Mem sample_a "Cka_Value").
Proof.
  split; [reflexivity | ].
  apply (lookup_case_insensitive sample_a "cka_VALUE" "Cka_Value").
  reflexivity.
Defined.

(** ** The number of rounds of the search *)

(** A range shorter than [2 ^ k] is searched in [k] rounds and the final
    test. *)
Lemma bsearch_loop_log key compar k : forall fuel fuel' l u m,
  (u <= List.length (_a m))%nat ->
  (u - l < 2 ^ k)%nat -> (k < fuel)%nat -> (u - l < fuel')%nat ->
  bsearch_loop fuel key compar l u m = bsearch_loop fuel' key compar l u m.
Proof.
  induction k as [|k IH]; intros [|fuel] [|fuel'] l u m Hu Hk Hf Hf';
    try lia; cbn [bsearch_loop].
  - replace (l <? u)%nat with false; [reflexivity|].
    symmetry. apply Nat.ltb_ge. cbn in Hk. lia.
  - destruct (l <? u)%nat eqn:Hlu; [|reflexivity].
    apply Nat.ltb_lt in Hlu.
    pose proof (Nat.div_mod_eq (l + u) 2) as D.
    pose proof (Nat.mod_upper_bound (l + u) 2 ltac:(lia)) as R.
    rewrite Nat.pow_succ_r' in Hk.
    set (idx := ((l + u) / 2)%nat) in *.
    unfold bind, load_a.
    destruct (nth_error (_a m) idx) as [p|]; [|reflexivity].
    destruct (compar key p <? 0); [apply IH; lia|].
    destruct (compar key p >? 0); [apply IH; lia | reflexivity].
Qed.

(** X3: the search of a table of [nmemb] entries ends within
    [log2 nmemb + 1] rounds of the loop, one comparison each, and the
    final test: that much fuel gives the result of the search. *)
Theorem bsearch_logarithmic key compar nmemb fuel m :
  (nmemb <= List.length (_a m))%nat ->
  (Nat.log2 nmemb + 1 < fuel)%nat ->
  exists r,
    bsearch_loop fuel key compar 0 nmemb m = Done r m /\
    bsearch key nmemb compar m = Done r m.
Proof.
  intros Hn Hf.
  destruct (bsearch_loop_run key compar (S nmemb) 0 nmemb m)
    as (r & Hr & _); [lia..|].
  exists r. split; [|exact Hr].
  rewrite <- Hr.
  apply (bsearch_loop_log key compar (Nat.log2 nmemb + 1)); try lia.
  rewrite Nat.sub_0_r, Nat.add_1_r.
  destruct nmemb as [|n]; [cbn; lia|].
  apply Nat.log2_spec. lia.
Qed.

Lemma bsearch_logarithmic_witness :
  (9 <= List.length (_a (Mem sample_a "CKA_TOKEN")))%nat /\
  (Nat.log2 9 + 1 < 5)%nat /\
  exists r,
    bsearch_loop 5 (candidate "CKA_TOKEN") compare_CKA_desc 0 9
      (Mem sample_a "CKA_TOKEN") = Done r (Mem sample_a "CKA_TOKEN") /\
    bsearch (candidate "CKA_TOKEN") 9 compare_CKA_desc
      (Mem sample_a "CKA_TOKEN") = Done r (Mem sample_a "CKA_TOKEN").
Proof.
  assert (H1 : (9 <= List.length (_a (Mem sample_a "CKA_TOKEN")))%nat)
    by (simpl; lia).
  assert (H2 : (Nat.log2 9 + 1 < 5)%nat) by (simpl; lia).
  split; [exact H1 | ].
  split; [exact H2 | ].
  exact (bsearch_logarithmic (candidate "CKA_TOKEN") compare_CKA_desc 9 5
           (Mem sample_a "CKA_TOKEN") H1 H2).
Defined.

(** ** The comparator as an order *)

Lemma strcasecmp_range s1 s2 : -255 <= strcasecmp s1 s2 <= 255.
Proof.
  assert (P : forall s, 0 <= tolower (peek s) <= 255).
  { intros [|c r]; cbn [peek]; [cbn; lia|].
    pose proof (Order.tolower_range _ (Order.byte_range c)). lia. }
  revert s2. induction s1 as [|c1 r1 IH]; intros s2.
  - pose proof (P s2). pose proof (P ""). destruct s2; cbn [strcasecmp]; lia.
  - destruct s2 as [|c2 r2].
    + pose proof (P (String c1 r1)). pose proof (P "").
      cbn [strcasecmp]. lia.
    + pose proof (P (String c1 r1)) as H1.
      pose proof (P (String c2 r2)) as H2. cbn [peek] in H1, H2.
      cbn [strcasecmp].
      destruct (tolower (byte c1) - tolower (byte c2) =? 0); [|lia].
      destruct (byte c1 =? 0); [lia | apply IH].
Qed.

(** X5: [compare_CKA_desc] answers 0 on an entry and itself, answers the
    opposite number when its arguments are swapped, stays within
    -255..255, so the [int] it returns never overflows, answers 0
    exactly when the two names are equal up to ASCII case, and takes no
    account of the [type] fields: whatever codes the two records carry,
    the answer is the one their names give. *)
Theorem compare_CKA_desc_symmetric a b :
  compare_CKA_desc a a = 0 /\
  compare_CKA_desc b a = - compare_CKA_desc a b /\
  -255 <= compare_CKA_desc a b <= 255 /\
  (compare_CKA_desc a b = 0 <-> ci_equal (desc a) (desc b)) /\
  (forall t1 t2,
     compare_CKA_desc {| type := t1; desc := desc a |}
       {| type := t2; desc := desc b |}
     = compare_CKA_desc a b).
Proof.
  split; [apply compare_refl|].
  split; [apply compare_antisym|].
  split; [apply strcasecmp_range|].
  split; [apply compare_zero|].
  intros t1 t2. reflexivity.
Qed.

(** X6: [compare_CKA_desc] is transitive, as [bsearch] needs of its
    comparator: below-or-equal chains, and the result is strictly below
    as soon as one link is. *)
Theorem compare_CKA_desc_transitive a b c :
  compare_CKA_desc a b <= 0 ->
  compare_CKA_desc b c <= 0 ->
  compare_CKA_desc a c <= 0 /\
  (compare_CKA_desc a b < 0 \/ compare_CKA_desc b c < 0 ->
   compare_CKA_desc a c < 0).
Proof. apply compare_trans. Qed.

Lemma compare_CKA_desc_transitive_witness :
  compare_CKA_desc (candidate "cka_class") (candidate "CKA_ID") <= 0 /\
  compare_CKA_desc (candidate "CKA_ID") (candidate "Cka_Label") <= 0 /\
  compare_CKA_desc (candidate "cka_class") (candidate "Cka_Label") <= 0 /\
  (compare_CKA_desc (candidate "cka_class") (candidate "CKA_ID") < 0 \/
   compare_CKA_desc (candidate "CKA_ID") (candidate "Cka_Label") < 0 ->
   compare_CKA_desc (candidate "cka_class") (candidate "Cka_Label") < 0).
Proof.
  assert (H1 : compare_CKA_desc (candidate "cka_class") (candidate "CKA_ID")
               <= 0) by (vm_compute; discriminate).
  assert (H2 : compare_CKA_desc (candidate "CKA_ID") (candidate "Cka_Label")
               <= 0) by (vm_compute; discriminate).
  split; [exact H1 | ].
  split; [exact H2 | ].
  exact (compare_CKA_desc_transitive (candidate "cka_class")
           (candidate "CKA_ID") (candidate "Cka_Label") H1 H2).
Defined.

(** * The wrapper scripts *)

(** ** Looking for a library *)

Section Search.

Import Sh.

Variable fs : string -> bool.

Lemma slash_in_path p l :
  In "/"%char (list_ascii_of_string (p ++ "/" ++ l)).
Proof.
  induction p as [|c p IH]; cbn [append list_ascii_of_string].
  - left. reflexivity.
  - right. exact IH.
Qed.

(** A path made of a directory, a slash and a name is never the text
    the functions print on failure. *)
Lemma path_differs_from_not_found p l : p ++ "/" ++ l <> "NOT FOUND".
Proof.
  intros H. pose proof (slash_in_path p l) as S. rewrite H in S.
  cbn in S. repeat destruct S as [S | S]; try discriminate S. exact S.
Qed.

Lemma search_paths_cases lib paths :
  (snd (search_paths fs lib paths) = 0 /\
   exists before path after,
     paths = (before ++ path :: after)%list /\
     none_exists fs lib before = true /\
     fst (search_paths fs lib paths) = path ++ "/" ++ lib /\
     fs (path ++ "/" ++ lib) = true) \/
  (snd (search_paths fs lib paths) = 1 /\
   fst (search_paths fs lib paths) = "NOT FOUND" /\
   none_exists fs lib paths = true).
Proof.
  induction paths as [|path rest IH]; cbn [search_paths none_exists forallb].
  - right. repeat split.
  - destruct (fs (path ++ "/" ++ lib)) eqn:E; cbn [negb andb fst snd].
    + left. split; [reflexivity|].
      exists [], path, rest. repeat split. exact E.
    + destruct IH as [(H0 & before & p & after & -> & Hb & Hout & Hfs)
                     | (H1 & Hout & Hnone)].
      * left. split; [exact H0|].
        exists (path :: before), p, after.
        split; [reflexivity|]. split; [|split; assumption].
        cbn [none_exists forallb]. rewrite E. exact Hb.
      * right. repeat split; assumption.
Qed.

(** The text a caller compares with ["NOT FOUND"] says what the return
    status says. *)
Lemma search_paths_not_found lib paths :
  fst (search_paths fs lib paths) = "NOT FOUND" <->
  none_exists fs lib paths = true.
Proof.
  destruct (search_paths_cases lib paths)
    as [(_ & before & p & after & -> & Hb & Hout & Hfs) | (_ & Hout & Hn)].
  - split.
    + rewrite Hout. intros H. destruct (path_differs_from_not_found _ _ H).
    + unfold none_exists. rewrite forallb_app. cbn [forallb].
      rewrite Hfs. cbn [negb andb]. rewrite andb_false_r. discriminate.
  - tauto.
Qed.

Lemma search_names_cases path names :
  match search_names fs path names with
  | Some r =>
      snd r = 0 /\ fs (fst r) = true /\
      exists before after,
        map (fun lib => path ++ "/" ++ lib) names
          = (before ++ fst r :: after)%list /\
        forallb (fun f => negb (fs f)) before = true
  | None =>
      forallb (fun f => negb (fs f))
        (map (fun lib => path ++ "/" ++ lib) names) = true
  end.
Proof.
  induction names as [|lib rest IH]; cbn [search_names map forallb].
  - reflexivity.
  - destruct (fs (path ++ "/" ++ lib)) eqn:E.
    + cbn [fst snd]. repeat split; [exact E|].
      exists [], (map (fun lib => path ++ "/" ++ lib) rest). repeat split.
    + destruct (search_names fs path rest) as [r|].
      * destruct IH as (H0 & Hfs & before & after & Hsplit & Hb).
        repeat split; [exact H0 | exact Hfs|].
        exists ((path ++ "/" ++ lib) :: before), after. split.
        -- rewrite Hsplit. reflexivity.
        -- cbn [forallb]. rewrite E. exact Hb.
      * cbn [negb andb]. exact IH.
Qed.

End Search.

(** X7: a function that looks for one library name in a list of
    directories returns status 0 with the path of the first directory
    that holds the library, a file that exists, and status 1 with the
    text NOT FOUND when no directory holds it; the text is NOT FOUND in
    that case only, so a caller that compares the text learns the
    status. *)
Theorem search_paths_first_existing fs lib paths :
  (snd (Sh.search_paths fs lib paths) = 0 /\
   fst (Sh.search_paths fs lib paths) <> "NOT FOUND" /\
   exists before path after,
     paths = (before ++ path :: after)%list /\
     Sh.none_exists fs lib before = true /\
     fst (Sh.search_paths fs lib paths) = path ++ "/" ++ lib /\
     fs (path ++ "/" ++ lib) = true) \/
  (snd (Sh.search_paths fs lib paths) = 1 /\
   fst (Sh.search_paths fs lib paths) = "NOT FOUND" /\
   Sh.none_exists fs lib paths = true).
Proof.
  destruct (search_paths_cases fs lib paths)
    as [(H0 & before & p & after & Hsplit & Hb & Hout & Hfs) | H1].
  - left. split; [exact H0|]. split.
    + rewrite Hout. apply path_differs_from_not_found.
    + exists before, p, after. auto.
  - right. exact H1.
Qed.

(** X8: the functions that look for several names in several
    directories test the files directory by directory, every name in a
    directory before the next directory, and return the first file that
    exists with status 0, or the text NOT FOUND with status 1 when none
    of the files exists. *)
Theorem search_nested_first_existing fs paths names :
  (snd (Sh.search_nested fs paths names) = 0 /\
   fs (fst (Sh.search_nested fs paths names)) = true /\
   exists before after,
     Sh.candidates paths names
       = (before ++ fst (Sh.search_nested fs paths names) :: after)%list /\
     forallb (fun f => negb (fs f)) before = true) \/
  (snd (Sh.search_nested fs paths names) = 1 /\
   fst (Sh.search_nested fs paths names) = "NOT FOUND" /\
   forallb (fun f => negb (fs f)) (Sh.candidates paths names) = true).
Proof.
  induction paths as [|path rest IH];
    cbn [Sh.search_nested Sh.candidates flat_map].
  - right. repeat split.
  - pose proof (search_names_cases fs path names) as Hn.
    destruct (Sh.search_names fs path names) as [r|].
    + destruct Hn as (H0 & Hfs & before & after & Hsplit & Hb).
      left. split; [exact H0|]. split; [exact Hfs|].
      exists before, (after ++ Sh.candidates rest names)%list. split.
      * unfold Sh.candidates. rewrite Hsplit, <- app_assoc. reflexivity.
      * exact Hb.
    + destruct IH as [(H0 & Hfs & before & after & Hsplit & Hb)
                     | (H1 & Hout & Hnone)].
      * left. split; [exact H0|]. split; [exact Hfs|].
        exists (app (map (fun lib => path ++ "/" ++ lib) names) before),
               after.
        split.
        -- fold (Sh.candidates rest names). rewrite Hsplit, app_assoc.
           reflexivity.
        -- rewrite forallb_app, Hn, Hb. reflexivity.
      * right. split; [exact H1|]. split; [exact Hout|].
        fold (Sh.candidates rest names).
        rewrite forallb_app, Hn, Hnone. reflexivity.
Qed.

(** ** The CloudHSM script *)

Section CloudHSMScript.

Import Sh CloudHSM.

Variable fs : string -> bool.
Variable machine : string.

Lemma is_empty_spec v : is_empty v = true <-> v = "".
Proof. destruct v; cbn; split; congruence. Qed.

Lemma non_empty_spec v : non_empty v = true <-> v <> "".
Proof. destruct v; cbn; split; congruence. Qed.

Lemma eqb_not_found lib paths :
  String.eqb (fst (search_paths fs lib paths)) "NOT FOUND"
  = none_exists fs lib paths.
Proof.
  pose proof (search_paths_not_found fs lib paths) as H.
  destruct (String.eqb_spec (fst (search_paths fs lib paths)) "NOT FOUND");
    destruct (none_exists fs lib paths); try reflexivity.
  - symmetry. apply H. assumption.
  - destruct n. apply H. reflexivity.
Qed.

(** What the loop over [variables] adds to the array. *)
Lemma collect_In e vs : forall acc x,
  In x (collect e vs acc) <->
  In x acc \/ exists v, In v vs /\ e v <> "" /\ x = v ++ "=" ++ e v.
Proof.
  induction vs as [|v rest IH]; intros acc x; cbn [collect].
  - split; [auto | intros [H | (v & [] & _)]; exact H].
  - rewrite IH. destruct (non_empty (e v)) eqn:E.
    + apply non_empty_spec in E. rewrite in_app_iff. cbn [In]. split.
      * intros [[H | [H | []]] | (w & Hw & Hne & Hx)]; auto.
        -- right. exists v. split; [left; reflexivity | auto].
        -- right. exists w. split; [right; exact Hw | auto].
      * intros [H | (w & [<- | Hw] & Hne & Hx)]; auto.
        right. exists w. auto.
    + assert (Hv : e v = "").
      { apply is_empty_spec. unfold non_empty in E.
        destruct (is_empty (e v)); [reflexivity | discriminate]. }
      split.
      * intros [H | (w & Hw & Hne & Hx)]; auto.
        right. exists w. split; [right; exact Hw | auto].
      * intros [H | (w & [<- | Hw] & Hne & Hx)]; auto.
        -- contradiction.
        -- right. exists w. auto.
Qed.

End CloudHSMScript.

Ltac sh_env :=
  cbn [Sh.assign Sh.unset String.eqb Ascii.eqb Bool.eqb fst snd] in *.

(** X9: with the rc files skipped, the CloudHSM script ends in one of two
    ways, [exit 1] or the [eval] of the command, and it gives up exactly
    when a library it has to name is missing: no [PKCS11LIB] from the
    caller and no vendor library in the search directories, or the text
    NOT FOUND as [PKCS11LIB], or [SHIM] set and no shim library, or [SPY]
    set without [SHIM] and no spy library. *)
Theorem cloudhsm_script_gives_up fs machine e :
  e "NORC" <> "" ->
  (snd (CloudHSM.script fs machine e) = Sh.Exit 1 <->
   (e "PKCS11LIB" = "" /\
    Sh.none_exists fs CloudHSM.PKCS11_LIBNAME CloudHSM.PKCS11_LIBPATHS
      = true) \/
   e "PKCS11LIB" = "NOT FOUND" \/
   (e "SHIM" <> "" /\
    Sh.none_exists fs "libpkcs11shim.so" CloudHSM.shim_paths = true) \/
   (e "SHIM" = "" /\ e "SPY" <> "" /\
    Sh.none_exists fs "pkcs11-spy.so" (CloudHSM.spy_paths machine) = true))
  /\
  (snd (CloudHSM.script fs machine e) = Sh.Exit 1 \/
   exists environment,
     snd (CloudHSM.script fs machine e) = Sh.At_eval environment).
Proof.
  intros Hrc.
  unfold CloudHSM.script, CloudHSM.hand_over,
    CloudHSM.find_p11_lib, CloudHSM.find_shim_lib, CloudHSM.find_spy_lib.
  sh_env.
  replace (Sh.is_empty (e "NORC")) with false
    by (destruct (e "NORC"); [contradiction | reflexivity]).
  unfold Sh.default_to.
  destruct (Sh.is_empty (e "PKCS11LIB")) eqn:Elib.
  - apply is_empty_spec in Elib. rewrite Elib.
    rewrite eqb_not_found.
    destruct (Sh.none_exists fs CloudHSM.PKCS11_LIBNAME
                CloudHSM.PKCS11_LIBPATHS) eqn:Hlib.
    + sh_env. split; [|left; reflexivity]. split; auto.
    + destruct (Sh.non_empty (e "SHIM")) eqn:Eshim.
      * apply non_empty_spec in Eshim. rewrite eqb_not_found.
        destruct (Sh.none_exists fs "libpkcs11shim.so" CloudHSM.shim_paths);
          sh_env.
        -- split; [|left; reflexivity]. split; auto.
        -- split; [|right; eexists; reflexivity].
           split; [discriminate|].
           intros [[_ H] | [H | [[_ H] | [H _]]]];
             try discriminate H; contradiction.
      * assert (Hs : e "SHIM" = "").
        { destruct (e "SHIM"); [reflexivity | discriminate]. }
        destruct (Sh.non_empty (e "SPY")) eqn:Espy.
        -- apply non_empty_spec in Espy. rewrite eqb_not_found.
           destruct (Sh.none_exists fs "pkcs11-spy.so"
                       (CloudHSM.spy_paths machine)); sh_env.
           ++ split; [|left; reflexivity]. split; auto 6.
           ++ split; [|right; eexists; reflexivity].
              split; [discriminate|].
              intros [[_ H] | [H | [[H _] | [_ [_ H]]]]];
                try discriminate H; contradiction.
        -- assert (Hp : e "SPY" = "").
           { destruct (e "SPY"); [reflexivity | discriminate]. }
           sh_env. split; [|right; eexists; reflexivity].
           split; [discriminate|].
           intros [[_ H] | [H | [[H _] | [_ [H _]]]]];
             try discriminate H; contradiction.
  - assert (Hl : e "PKCS11LIB" <> "").
    { intros H. rewrite H in Elib. discriminate. }
    destruct (String.eqb_spec (e "PKCS11LIB") "NOT FOUND") as [Hnf | Hnf].
    + sh_env. split; [|left; reflexivity]. split; auto.
    + destruct (Sh.non_empty (e "SHIM")) eqn:Eshim.
      * apply non_empty_spec in Eshim. rewrite eqb_not_found.
        destruct (Sh.none_exists fs "libpkcs11shim.so" CloudHSM.shim_paths);
          sh_env.
        -- split; [|left; reflexivity]. split; auto.
        -- split; [|right; eexists; reflexivity].
           split; [discriminate|].
           intros [[H _] | [H | [[_ H] | [H _]]]];
             try discriminate H; contradiction.
      * assert (Hs : e "SHIM" = "").
        { destruct (e "SHIM"); [reflexivity | discriminate]. }
        destruct (Sh.non_empty (e "SPY")) eqn:Espy.
        -- apply non_empty_spec in Espy. rewrite eqb_not_found.
           destruct (Sh.none_exists fs "pkcs11-spy.so"
                       (CloudHSM.spy_paths machine)); sh_env.
           ++ split; [|left; reflexivity]. split; auto 6.
           ++ split; [|right; eexists; reflexivity].
              split; [discriminate|].
              intros [[H _] | [H | [[H _] | [_ [_ H]]]]];
                try discriminate H; contradiction.
        -- assert (Hp : e "SPY" = "").
           { destruct (e "SPY"); [reflexivity | discriminate]. }
           sh_env. split; [|right; eexists; reflexivity].
           split; [discriminate|].
           intros [[H _] | [H | [[H _] | [_ [H _]]]]];
             try discriminate H; contradiction.
Qed.

(** An assignment word splits in one way when the name has no [=]. *)
Lemma assignment_inj v w a b :
  ~ In "="%char (list_ascii_of_string v) ->
  ~ In "="%char (list_ascii_of_string w) ->
  v ++ "=" ++ a = w ++ "=" ++ b -> v = w /\ a = b.
Proof.
  revert w. induction v as [|c v IH]; intros [|d w] Hv Hw;
    cbn [append list_ascii_of_string In] in *.
  - intros [= ->]. auto.
  - intros [= <- _]. tauto.
  - intros [= -> _]. tauto.
  - intros [= -> H]. destruct (IH w) as [-> ->]; auto.
Qed.

Lemma variables_plain :
  Forall (fun v => ~ In "="%char (list_ascii_of_string v)) CloudHSM.variables.
Proof.
  repeat constructor; cbn; intros H;
    repeat (destruct H as [H | H]; [discriminate H|]); exact H.
Qed.

(** A variable of the list is in the array exactly with its value, and
    only when the value is not empty. *)
Lemma exported_iff ef v val :
  In v CloudHSM.variables ->
  (In (v ++ "=" ++ val) (CloudHSM.collect ef CloudHSM.variables [""]) <->
   val = ef v /\ ef v <> "").
Proof.
  intros Hv. rewrite collect_In. split.
  - pose proof variables_plain as P. rewrite Forall_forall in P.
    intros [[H | []] | (w & Hw & Hne & Hx)].
    + destruct v; discriminate H.
    + destruct (assignment_inj v w val (ef w) (P v Hv) (P w Hw) Hx)
        as [-> ->].
      auto.
  - intros [-> Hne]. right. exists v. auto.
Qed.

Section CloudHSMEval.

Import Sh CloudHSM.

Variable fs : string -> bool.
Variable machine : string.

Lemma search_paths_found lib paths :
  String.eqb (fst (search_paths fs lib paths)) "NOT FOUND" = false ->
  fs (fst (search_paths fs lib paths)) = true /\
  exists dir, In dir paths /\
    fst (search_paths fs lib paths) = dir ++ "/" ++ lib.
Proof.
  intros H.
  destruct (search_paths_cases fs lib paths)
    as [(_ & before & p & after & -> & _ & Hout & Hfs) | (_ & Hout & _)].
  - rewrite Hout. split; [exact Hfs|].
    exists p. split; [|reflexivity].
    apply in_or_app. right. left. reflexivity.
  - rewrite Hout in H. discriminate.
Qed.

Lemma script_endings e :
  e "NORC" <> "" ->
  snd (script fs machine e) = Exit 1 \/
  exists e',
    snd (script fs machine e)
      = At_eval (collect (choose_slot e') variables [""]) /\
    at_slot_tests fs machine e e'.
Proof.
  intros Hrc. unfold script, hand_over, at_slot_tests. sh_env.
  replace (is_empty (e "NORC")) with false
    by (destruct (e "NORC"); [contradiction | reflexivity]).
  fold (vendor_lib fs e).
  destruct (String.eqb (vendor_lib fs e) "NOT FOUND") eqn:Ev; sh_env;
    [left; reflexivity|].
  destruct (non_empty (e "SHIM")) eqn:Eshim.
  - apply non_empty_spec in Eshim.
    destruct (String.eqb (fst (find_shim_lib fs)) "NOT FOUND") eqn:Ef;
      sh_env; [left; reflexivity|].
    right. eexists. split; [reflexivity|]. sh_env.
    repeat (split; [reflexivity|]). left. repeat split; auto.
  - assert (Hs : e "SHIM" = "").
    { destruct (e "SHIM"); [reflexivity | discriminate]. }
    destruct (non_empty (e "SPY")) eqn:Espy.
    + apply non_empty_spec in Espy.
      destruct (String.eqb (fst (find_spy_lib fs machine)) "NOT FOUND") eqn:Ef;
        sh_env; [left; reflexivity|].
      right. eexists. split; [reflexivity|]. sh_env.
      repeat (split; [reflexivity|]). right. left. repeat split; auto.
    + assert (Hp : e "SPY" = "").
      { destruct (e "SPY"); [reflexivity | discriminate]. }
      right. eexists. split; [reflexivity|]. sh_env.
      repeat (split; [reflexivity|]). right. right. repeat split; auto.
Qed.

Lemma script_eval_inv e environment :
  e "NORC" <> "" ->
  snd (script fs machine e) = At_eval environment ->
  exists e',
    environment = collect (choose_slot e') variables [""] /\
    at_slot_tests fs machine e e'.
Proof.
  intros Hrc Hev.
  destruct (script_endings e Hrc) as [H | (e' & H & Hat)];
    rewrite H in Hev; [discriminate Hev|].
  injection Hev as <-. exists e'. auto.
Qed.

(** What the slot tests leave in the variables. *)
Lemma choose_slot_values e :
  (e "NOSLOT" <> "" ->
   choose_slot e "PKCS11SLOT" = "" /\
   choose_slot e "PKCS11TOKENLABEL" = "") /\
  (e "NOSLOT" = "" -> e "PKCS11TOKENLABEL" = "" ->
   choose_slot e "PKCS11SLOT" = default_to (e "PKCS11SLOT") "0" /\
   choose_slot e "PKCS11TOKENLABEL" = "") /\
  (e "NOSLOT" = "" -> e "PKCS11TOKENLABEL" <> "" ->
   choose_slot e "PKCS11SLOT" = e "PKCS11SLOT" /\
   choose_slot e "PKCS11TOKENLABEL" = e "PKCS11TOKENLABEL") /\
  choose_slot e "PKCS11LIB" = e "PKCS11LIB" /\
  choose_slot e "PKCS11NSSDIR" = e "PKCS11NSSDIR" /\
  choose_slot e "PKCS11PASSWORD" = e "PKCS11PASSWORD" /\
  choose_slot e "PKCS11SHIM" = e "PKCS11SHIM" /\
  choose_slot e "PKCS11SHIM_OUTPUT" = e "PKCS11SHIM_OUTPUT" /\
  choose_slot e "PKCS11SPY" = e "PKCS11SPY" /\
  choose_slot e "PKCS11SPY_OUTPUT" = e "PKCS11SPY_OUTPUT".
Proof.
  unfold choose_slot, non_empty.
  destruct (e "NOSLOT") eqn:En; destruct (e "PKCS11TOKENLABEL") eqn:Et;
    cbn [is_empty andb negb]; sh_env; rewrite ?En, ?Et;
    cbn [is_empty andb negb]; sh_env;
    repeat split; intros; try congruence; auto.
Qed.


Lemma vendor_lib_non_empty e : vendor_lib fs e <> "".
Proof.
  unfold vendor_lib, default_to, find_p11_lib.
  destruct (e "PKCS11LIB") eqn:E; cbn [is_empty]; [|discriminate].
  destruct (search_paths_cases fs PKCS11_LIBNAME PKCS11_LIBPATHS)
    as [(_ & before & p & after & _ & _ & -> & _) | (_ & -> & _)].
  - destruct p; discriminate.
  - discriminate.
Qed.

End CloudHSMEval.

(** X10: when the CloudHSM script reaches the [eval], with the rc files
    skipped: if [NOSLOT] is set the array names neither a slot nor a
    token label; if neither [NOSLOT] nor a token label is set the array
    carries the caller's slot, or slot 0 when the caller gave none; if a
    token label is set without [NOSLOT] the label is carried and the slot
    is not defaulted: a slot is in the array only as the caller gave
    it. *)
Theorem cloudhsm_slot_choice fs machine e environment :
  e "NORC" <> "" ->
  snd (CloudHSM.script fs machine e) = Sh.At_eval environment ->
  (e "NOSLOT" <> "" ->
   forall val,
     ~ In ("PKCS11SLOT=" ++ val) environment /\
     ~ In ("PKCS11TOKENLABEL=" ++ val) environment) /\
  (e "NOSLOT" = "" -> e "PKCS11TOKENLABEL" = "" ->
   In ("PKCS11SLOT=" ++ Sh.default_to (e "PKCS11SLOT") "0") environment) /\
  (e "NOSLOT" = "" -> e "PKCS11TOKENLABEL" <> "" ->
   In ("PKCS11TOKENLABEL=" ++ e "PKCS11TOKENLABEL") environment /\
   forall val,
     In ("PKCS11SLOT=" ++ val) environment -> val = e "PKCS11SLOT").
Proof.
  intros Hrc Hev.
  destruct (script_eval_inv fs machine e environment Hrc Hev)
    as (e' & -> & Hat).
  destruct Hat as (Hn & Ht & Hs & _).
  destruct (choose_slot_values e') as (Hno & Hdef & Hlab & _).
  rewrite Hn, Ht, Hs in *.
  assert (Vs : In "PKCS11SLOT" CloudHSM.variables) by (cbn; tauto).
  assert (Vt : In "PKCS11TOKENLABEL" CloudHSM.variables) by (cbn; tauto).
  split; [|split].
  - intros H val. destruct (Hno H) as [H1 H2].
    split; intros Hin.
    + apply (exported_iff (CloudHSM.choose_slot e') "PKCS11SLOT" val Vs)
        in Hin.
      destruct Hin as [_ Hne]. contradiction.
    + apply (exported_iff (CloudHSM.choose_slot e') "PKCS11TOKENLABEL" val Vt)
        in Hin.
      destruct Hin as [_ Hne]. contradiction.
  - intros H1 H2. destruct (Hdef H1 H2) as [Hv _].
    apply (exported_iff (CloudHSM.choose_slot e') "PKCS11SLOT" _ Vs).
    rewrite Hv. split; [reflexivity|].
    unfold Sh.default_to. destruct (e "PKCS11SLOT"); discriminate.
  - intros H1 H2. destruct (Hlab H1 H2) as [Hv1 Hv2]. split.
    + apply (exported_iff (CloudHSM.choose_slot e') "PKCS11TOKENLABEL" _ Vt).
      rewrite Hv2. split; [reflexivity | exact H2].
    + intros val Hin.
      apply (exported_iff (CloudHSM.choose_slot e') "PKCS11SLOT" val Vs)
        in Hin.
      destruct Hin as [-> _]. exact Hv1.
Qed.

Lemma cloudhsm_slot_choice_witness :
  CloudHSM.sample_env "NORC" <> "" /\
  snd (CloudHSM.script CloudHSM.sample_fs "x86_64" CloudHSM.sample_env)
    = Sh.At_eval CloudHSM.sample_environment /\
  In ("PKCS11SLOT=" ++ Sh.default_to (CloudHSM.sample_env "PKCS11SLOT") "0")
    CloudHSM.sample_environment.
Proof.
  assert (H1 : CloudHSM.sample_env "NORC" <> "") by (vm_compute; discriminate).
  assert (H2 : snd (CloudHSM.script CloudHSM.sample_fs "x86_64"
                      CloudHSM.sample_env)
               = Sh.At_eval CloudHSM.sample_environment)
    by (vm_compute; reflexivity).
  split; [exact H1 | ].
  split; [exact H2 | ].
  pose proof (cloudhsm_slot_choice CloudHSM.sample_fs "x86_64"
                CloudHSM.sample_env CloudHSM.sample_environment H1 H2)
    as (_ & Hdef & _).
  apply Hdef; reflexivity.
Defined.

(** The array depends on the variables of the list only, and the slot
    tests on the variables they read and write. *)
Lemma collect_ext e1 e2 vs : forall acc,
  (forall v, In v vs -> e1 v = e2 v) ->
  CloudHSM.collect e1 vs acc = CloudHSM.collect e2 vs acc.
Proof.
  induction vs as [|v rest IH]; intros acc H; cbn [CloudHSM.collect];
    [reflexivity|].
  rewrite (H v) by (left; reflexivity).
  apply IH. intros w Hw. apply H. right. exact Hw.
Qed.

Lemma assign_agree s x a (e1 e2 : Sh.env) :
  (forall v, v <> s -> e1 v = e2 v) ->
  forall v, v <> s -> Sh.assign x a e1 v = Sh.assign x a e2 v.
Proof.
  intros H v Hv. unfold Sh.assign.
  destruct (String.eqb v x); [reflexivity | apply H; exact Hv].
Qed.

Lemma choose_slot_agree s (e1 e2 : Sh.env) :
  (forall v, v <> s -> e1 v = e2 v) ->
  s <> "NOSLOT" -> s <> "PKCS11TOKENLABEL" -> s <> "PKCS11SLOT" ->
  forall v, v <> s -> CloudHSM.choose_slot e1 v = CloudHSM.choose_slot e2 v.
Proof.
  intros H Hn Ht Hs v Hv. unfold CloudHSM.choose_slot. cbv zeta.
  rewrite <- (H "NOSLOT"), <- (H "PKCS11TOKENLABEL"), <- (H "PKCS11SLOT")
    by congruence.
  destruct (Sh.is_empty (e1 "NOSLOT") && Sh.is_empty (e1 "PKCS11TOKENLABEL"));
    cbn [Sh.assign Sh.unset String.eqb Ascii.eqb Bool.eqb];
    rewrite <- ?(H "NOSLOT") by congruence;
    destruct (Sh.non_empty (e1 "NOSLOT"));
    unfold Sh.unset, Sh.assign;
    repeat match goal with
           | |- context [String.eqb v ?x] => destruct (String.eqb v x)
           end;
    try reflexivity; apply H; exact Hv.
Qed.

(** X11: when [SHIM] is set and the CloudHSM script reaches the [eval],
    with the rc files skipped, [PKCS11LIB] in the array is the shim
    library, found in one of the shim directories and existing,
    [PKCS11SHIM] is the vendor library the script had settled on,
    [PKCS11SHIM_OUTPUT] is the value of [SHIM]; and [SPY] plays no part
    in the run. *)
Theorem cloudhsm_shim_hook fs machine e environment :
  e "NORC" <> "" ->
  e "SHIM" <> "" ->
  snd (CloudHSM.script fs machine e) = Sh.At_eval environment ->
  In ("PKCS11LIB=" ++ fst (CloudHSM.find_shim_lib fs)) environment /\
  fs (fst (CloudHSM.find_shim_lib fs)) = true /\
  (exists dir, In dir CloudHSM.shim_paths /\
     fst (CloudHSM.find_shim_lib fs) = dir ++ "/libpkcs11shim.so") /\
  In ("PKCS11SHIM=" ++ CloudHSM.vendor_lib fs e) environment /\
  In ("PKCS11SHIM_OUTPUT=" ++ e "SHIM") environment /\
  (forall spy,
     CloudHSM.script fs machine (Sh.assign "SPY" spy e)
     = CloudHSM.script fs machine e).
Proof.
  intros Hrc Hshim Hev.
  destruct (script_eval_inv fs machine e environment Hrc Hev)
    as (e' & -> & Hat).
  destruct Hat as (_ & _ & _ & _ & _ & _ & Hcases).
  destruct Hcases as [(_ & Hlib & Hfound & Hsh & Hout & _)
                     | [(H & _) | (H & _)]]; try contradiction.
  destruct (search_paths_found fs _ _ Hfound) as (Hfs & dir & Hdir & Hpath).
  destruct (choose_slot_values e')
    as (_ & _ & _ & Cl & _ & _ & Cs & Co & _).
  assert (Vl : In "PKCS11LIB" CloudHSM.variables) by (cbn; tauto).
  assert (Vs : In "PKCS11SHIM" CloudHSM.variables) by (cbn; tauto).
  assert (Vo : In "PKCS11SHIM_OUTPUT" CloudHSM.variables) by (cbn; tauto).
  split; [|split; [exact Hfs|split; [exists dir; auto|split; [|split]]]].
  - apply (exported_iff (CloudHSM.choose_slot e') "PKCS11LIB" _ Vl).
    rewrite Cl, Hlib. split; [reflexivity|].
    unfold CloudHSM.find_shim_lib in *. rewrite Hpath.
    destruct dir; discriminate.
  - apply (exported_iff (CloudHSM.choose_slot e') "PKCS11SHIM" _ Vs).
    rewrite Cs, Hsh. split; [reflexivity | apply vendor_lib_non_empty].
  - apply (exported_iff (CloudHSM.choose_slot e') "PKCS11SHIM_OUTPUT" _ Vo).
    rewrite Co, Hout. split; [reflexivity | exact Hshim].
  - intros spy. unfold CloudHSM.script. sh_env.
    replace (Sh.non_empty (e "SHIM")) with true
      by (symmetry; apply non_empty_spec; exact Hshim).
    destruct (Sh.is_empty (e "NORC")); [reflexivity|].
    destruct (String.eqb _ "NOT FOUND"); [reflexivity|].
    destruct (String.eqb _ "NOT FOUND"); [reflexivity|].
    unfold CloudHSM.hand_over. do 2 f_equal.
    apply collect_ext. intros v Hv.
    apply (choose_slot_agree "SPY"); try discriminate.
    + repeat (apply assign_agree). intros w Hw. unfold Sh.assign.
      destruct (String.eqb_spec w "SPY"); [contradiction | reflexivity].
    + intros ->. cbn in Hv.
      repeat (destruct Hv as [Hv | Hv]; [discriminate Hv|]). exact Hv.
Qed.

Lemma cloudhsm_shim_hook_witness :
  CloudHSM.sample_env "NORC" <> "" /\
  CloudHSM.sample_env "SHIM" <> "" /\
  snd (CloudHSM.script CloudHSM.sample_fs "x86_64" CloudHSM.sample_env)
    = Sh.At_eval CloudHSM.sample_environment /\
  In ("PKCS11SHIM="
        ++ CloudHSM.vendor_lib CloudHSM.sample_fs CloudHSM.sample_env)
    CloudHSM.sample_environment.
Proof.
  assert (H1 : CloudHSM.sample_env "NORC" <> "") by (vm_compute; discriminate).
  assert (H2 : CloudHSM.sample_env "SHIM" <> "") by (vm_compute; discriminate).
  assert (H3 : snd (CloudHSM.script CloudHSM.sample_fs "x86_64"
                      CloudHSM.sample_env)
               = Sh.At_eval CloudHSM.sample_environment)
    by (vm_compute; reflexivity).
  split; [exact H1 | ].
  split; [exact H2 | ].
  split; [exact H3 | ].
  pose proof (cloudhsm_shim_hook CloudHSM.sample_fs "x86_64"
                CloudHSM.sample_env CloudHSM.sample_environment H1 H2 H3)
    as (_ & _ & _ & Hshim & _).
  exact Hshim.
Defined.



Lemma cloudhsm_script_gives_up_witness :
  CloudHSM.sample_env "NORC" <> "" /\
  (snd (CloudHSM.script CloudHSM.sample_fs "x86_64" CloudHSM.sample_env)
     = Sh.Exit 1 \/
   exists environment,
     snd (CloudHSM.script CloudHSM.sample_fs "x86_64" CloudHSM.sample_env)
       = Sh.At_eval environment).
Proof.
  assert (H1 : CloudHSM.sample_env "NORC" <> "") by (vm_compute; discriminate).
  split; [exact H1 | ].
  pose proof (cloudhsm_script_gives_up CloudHSM.sample_fs "x86_64"
                CloudHSM.sample_env H1) as (_ & Hends).
  exact Hends.
Defined.
